(** * WebSocketService (src/services/websocket.ts)

    A shallow embedding of the chat client's socket wrapper: the
    connection manager (connect / disconnect / reconnect, token retrieval
    with retry), the guarded outbound operations, and the event registry
    (on / off / emit).

    Modelling conventions.
    - JavaScript objects that the service holds by reference (the
      socket.io sockets returned by [io]) live in a store, [sockets];
      [this.socket] is a handle into it, so a socket that the service no
      longer points at keeps its handlers and can still call back.
    - Methods are computations in a small state-and-exception monad [M]:
      [try]/[catch] is [try_catch], a [throw] escapes through [bind].
    - What the outside world can observe is appended to [trace]: token
      store reads, timers, console.error lines, calls of registered
      listeners, sockets opened, outbound socket emissions.  console.log
      lines are not recorded.
    - The client library throws in two places: [io] on a URI it refuses
      to parse, which [connect] catches after it has stored the user id,
      and [socket.emit] on one of its reserved event names, which nothing
      catches.  [socket_emit] has the second; [connect_for] is [connect]
      for either answer to the configured URI, and [connect] itself is
      the case where the URI is accepted.
    - Registered listeners are known by what the service sees of them:
      whether a call returns or throws ([Listeners]).  [emit] is the
      dispatch to listeners that leave the registry alone while it runs;
      [emit_live] is the dispatch over the live [Set], for listeners
      that call [on] and [off] from inside it ([Callbacks]).
    - [async] methods run without interleaving up to the point where they
      hand back a promise that only a socket event can settle; the
      continuations that resume after an [await] are also available as
      separate operations ([Op]) so that reachability covers interleaved
      executions.

    Two neighbours of the service are embedded as well: the module that
    supplies its settings (src/config/env.ts: [getEnvVar],
    [getNumberEnvVar], [validateEnv]) and the state updates that
    ChatScreen's listeners apply to its message list
    (src/screens/ChatScreen.tsx: [handleNewMessage],
    [handleMessageRead]). *)

From stdpp Require Import gmap strings list fin_maps pretty.
From Stdlib Require Import ZArith.

Local Open Scope Z_scope.
Local Open Scope string_scope.

(** ** JavaScript values carried as event payloads *)

#[warnings="-register-all"]
Inductive JsVal :=
| JUndefined
| JNull
| JBool (b : bool)
| JNum (z : Z)
| JStr (s : string)
| JObj (fields : list (string * JsVal)).

(** A registered callback is identified by its reference. *)
Definition Listener := nat.

(** ** Observable effects *)

Inductive Effect :=
| GetItemAsync (key : string)                       (* SecureStore.getItemAsync(key) *)
| SetTimeout (ms : Z)                               (* await new Promise(r => setTimeout(r, ms)) *)
| ConsoleError (msg : string)                       (* console.error(msg, ...) *)
| ListenerCall (l : Listener) (data : JsVal)        (* listener(data) *)
| Io (h : nat) (token : string) (uid : option string) (* io(url, { auth: { token, userId } ... }) *)
| SocketEmit (h : nat) (ev : string) (args : list JsVal) (* socket.emit(ev, ...args) *)
| SocketDisconnect (h : nat).                       (* socket.disconnect() *)

(** ** Handlers the service registers on a socket with [socket.on] *)

Inductive Handler :=
| OnConnect                 (* connect, lines 100-106 *)
| OnConnectError            (* connect, lines 108-112 *)
| OnDisconnect              (* connect, lines 114-118 *)
| OnError                   (* connect, lines 120-123 *)
| Forward (ev : string).    (* setupEventListeners: data => this.emit(ev, data) *)

(** ** A socket.io client socket

    [sock_connected] is the library's [socket.connected]; [sock_handlers]
    are the [socket.on] registrations in registration order;
    [sock_settled] is the state of the promise returned by the [connect]
    call that opened this socket ([None] while pending); [sock_closed]
    records a manual [socket.disconnect()]. *)

Record Socket := mkSocket {
  sock_connected : bool;
  sock_handlers : list (string * Handler);
  sock_token : string;
  sock_userId : option string;
  sock_settled : option bool;
  sock_closed : bool
}.

(** ** The service object together with the objects it refers to *)

Record Service := mkService {
  sockets : list Socket;
  socket : option nat;
  isConnected : bool;
  reconnectAttempts : Z;
  maxReconnectAttempts : Z;
  reconnectDelay : Z;
  currentUserId : option string;
  eventListeners : gmap string (list Listener);
  trace : list Effect
}.

(** [new WebSocketService()] with the two values read from [ENV]. *)
Definition init (attempts delay : Z) : Service :=
  {| sockets := []; socket := None; isConnected := false;
     reconnectAttempts := 0; maxReconnectAttempts := attempts;
     reconnectDelay := delay; currentUserId := None;
     eventListeners := ∅; trace := [] |}.

Definition set_sockets (v : list Socket) (s : Service) : Service :=
  mkService v (socket s) (isConnected s) (reconnectAttempts s)
    (maxReconnectAttempts s) (reconnectDelay s) (currentUserId s)
    (eventListeners s) (trace s).

Definition set_socket (v : option nat) (s : Service) : Service :=
  mkService (sockets s) v (isConnected s) (reconnectAttempts s)
    (maxReconnectAttempts s) (reconnectDelay s) (currentUserId s)
    (eventListeners s) (trace s).

Definition set_isConnected (v : bool) (s : Service) : Service :=
  mkService (sockets s) (socket s) v (reconnectAttempts s)
    (maxReconnectAttempts s) (reconnectDelay s) (currentUserId s)
    (eventListeners s) (trace s).

Definition set_reconnectAttempts (v : Z) (s : Service) : Service :=
  mkService (sockets s) (socket s) (isConnected s) v
    (maxReconnectAttempts s) (reconnectDelay s) (currentUserId s)
    (eventListeners s) (trace s).

Definition set_currentUserId (v : option string) (s : Service) : Service :=
  mkService (sockets s) (socket s) (isConnected s) (reconnectAttempts s)
    (maxReconnectAttempts s) (reconnectDelay s) v
    (eventListeners s) (trace s).

Definition set_eventListeners (v : gmap string (list Listener)) (s : Service) : Service :=
  mkService (sockets s) (socket s) (isConnected s) (reconnectAttempts s)
    (maxReconnectAttempts s) (reconnectDelay s) (currentUserId s)
    v (trace s).

Definition set_trace (v : list Effect) (s : Service) : Service :=
  mkService (sockets s) (socket s) (isConnected s) (reconnectAttempts s)
    (maxReconnectAttempts s) (reconnectDelay s) (currentUserId s)
    (eventListeners s) v.

(** ** The monad: state plus JavaScript exceptions *)

Inductive Outcome (A : Type) :=
| Returns (a : A)
| Throws (e : JsVal).
Arguments Returns {A} a.
Arguments Throws {A} e.

Definition M (A : Type) : Type := Service -> Outcome A * Service.

Definition ret {A} (a : A) : M A := fun s => (Returns a, s).

Definition bind {A B} (m : M A) (k : A -> M B) : M B :=
  fun s => match m s with
           | (Returns a, s') => k a s'
           | (Throws e, s') => (Throws e, s')
           end.

Definition throw {A} (e : JsVal) : M A := fun s => (Throws e, s).

Definition try_catch {A} (body : M A) (handler : JsVal -> M A) : M A :=
  fun s => match body s with
           | (Returns a, s') => (Returns a, s')
           | (Throws e, s') => handler e s'
           end.

Definition get : M Service := fun s => (Returns s, s).
Definition modify (f : Service -> Service) : M unit := fun s => (Returns tt, f s).
Definition log (e : Effect) : M unit := modify (fun s => set_trace (trace s ++ [e]) s).

Declare Scope svc_scope.
Delimit Scope svc_scope with svc.
Notation "x <- m ;; k" := (bind m (fun x => k))
  (at level 100, m at next level, right associativity) : svc_scope.
Notation "m ;;; k" := (bind m (fun _ => k))
  (at level 100, right associativity) : svc_scope.
Local Open Scope svc_scope.

(** [Array.prototype.forEach] / [Set.prototype.forEach]: a callback that
    throws aborts the iteration. *)
Fixpoint for_each {A} (f : A -> M unit) (l : list A) : M unit :=
  match l with
  | [] => ret tt
  | x :: l' => f x ;;; for_each f l'
  end.

Definition when (b : bool) (m : M unit) : M unit := if b then m else ret tt.

Definition console_error (msg : string) : M unit := log (ConsoleError msg).
Definition sleep (ms : Z) : M unit := log (SetTimeout ms).

(** JavaScript truthiness of a [string | null | undefined]. *)
Definition truthy (v : option string) : bool :=
  match v with
  | Some t => negb (String.eqb t "")
  | None => false
  end.

(** [v || null] and [v || undefined] on such a value. *)
Definition or_null (v : option string) : option string :=
  if truthy v then v else None.

(** What calling a listener does as far as the service can tell: it
    returns, or it throws.  These listeners do not call back into the
    service while they run, which is how the listeners of the
    application behave (they update the state of a screen); listeners
    that call [on] and [off] from inside a dispatch are the subject of
    [call_live] and [emit_live] further down. *)
Class Listeners := throws : Listener -> JsVal -> bool.

Section WithListeners.

Context {L : Listeners}.

Definition call_listener (l : Listener) (data : JsVal) : M unit :=
  log (ListenerCall l data) ;;;
  if throws l data then throw (JStr "listener error") else ret tt.

(** ** Event registry *)

Definition registered (event : string) (s : Service) : list Listener :=
  default [] (eventListeners s !! event).

(** [Set.prototype.add]: insertion order, no duplicates. *)
Definition set_add (l : Listener) (ls : list Listener) : list Listener :=
  if decide (l ∈ ls) then ls else ls ++ [l].

(** [Set.prototype.delete]. *)
Definition set_delete (l : Listener) (ls : list Listener) : list Listener :=
  filter (λ x, x ≠ l) ls.

Definition on (event : string) (listener : Listener) : M unit :=
  s <- get ;;
  when (negb (bool_decide (is_Some (eventListeners s !! event))))
       (modify (λ s, set_eventListeners (<[event := []]> (eventListeners s)) s)) ;;;
  modify (λ s, set_eventListeners
                 (<[event := set_add listener (registered event s)]> (eventListeners s)) s).

Definition off (event : string) (listener : Listener) : M unit :=
  s <- get ;;
  match eventListeners s !! event with
  | Some listeners =>
      let listeners' := set_delete listener listeners in
      modify (λ s, set_eventListeners (<[event := listeners']> (eventListeners s)) s) ;;;
      when (Nat.eqb (length listeners') 0)
           (modify (λ s, set_eventListeners (delete event (eventListeners s)) s))
  | None => ret tt
  end.

Definition emit (event : string) (data : JsVal) : M unit :=
  s <- get ;;
  match eventListeners s !! event with
  | Some listeners =>
      for_each (λ listener,
                 try_catch (call_listener listener data)
                           (λ error, console_error ("Error in event listener for " ++ event ++ ":")))
               listeners
  | None => ret tt
  end.

(** ** The socket.io client, as far as the service relies on it

    [io] below is the call that returns: the client library reports a
    failed connection through the [connect_error] event, not by
    throwing.  The one thing it throws on is a URI it refuses to parse (one
    of more than 8000 characters); [io_for] further down covers both. *)

Definition new_socket (token : string) (uid : option string) : Socket :=
  mkSocket false [] token uid None false.

Definition io (token : string) (uid : option string) : M nat :=
  s <- get ;;
  let h := length (sockets s) in
  modify (set_sockets (sockets s ++ [new_socket token uid])) ;;;
  log (Io h token uid) ;;;
  ret h.

Definition alter_socket (f : Socket -> Socket) (h : nat) : M unit :=
  modify (λ s, set_sockets (alter f h (sockets s)) s).

Definition add_handlers (hs : list (string * Handler)) (so : Socket) : Socket :=
  mkSocket (sock_connected so) (sock_handlers so ++ hs)
    (sock_token so) (sock_userId so) (sock_settled so) (sock_closed so).

(** [socket.on(ev, handler)] *)
Definition socket_on (h : nat) (ev : string) (hd : Handler) : M unit :=
  alter_socket (add_handlers [(ev, hd)]) h.

Definition with_connected (b : bool) (so : Socket) : Socket :=
  mkSocket b (sock_handlers so) (sock_token so) (sock_userId so)
    (sock_settled so) (sock_closed so).

Definition with_closed (so : Socket) : Socket :=
  mkSocket false (sock_handlers so) (sock_token so) (sock_userId so)
    (sock_settled so) true.

(** [resolve(b)] of the promise made by the [connect] call that opened
    socket [h]; only the first call settles it. *)
Definition settle (b : bool) (so : Socket) : Socket :=
  match sock_settled so with
  | Some _ => so
  | None => mkSocket (sock_connected so) (sock_handlers so)
              (sock_token so) (sock_userId so) (Some b) (sock_closed so)
  end.

Definition resolve (h : nat) (b : bool) : M unit :=
  alter_socket (settle b) h.

(** [this.socket?.connected] *)
Definition socket_connected (s : Service) : bool :=
  match socket s with
  | Some h => match sockets s !! h with
              | Some so => sock_connected so
              | None => false
              end
  | None => false
  end.

(** The names the client library keeps for itself (its
    [RESERVED_EVENTS]): [socket.emit] throws when given one of them. *)
Definition reserved_events : list string :=
  [ "connect"; "connect_error"; "disconnect"; "disconnecting";
    "newListener"; "removeListener" ].

Definition reserved (ev : string) : bool :=
  existsb (String.eqb ev) reserved_events.

(** [x] between double quotes (character 34). *)
Definition quoted (x : string) : string :=
  String (Ascii.ascii_of_nat 34) (x ++ String (Ascii.ascii_of_nat 34) EmptyString).

(** [this.socket.emit(ev, ...args)] once the guard has passed. *)
Definition socket_emit (ev : string) (args : list JsVal) : M unit :=
  s <- get ;;
  match socket s with
  | Some h =>
      if reserved ev then throw (JStr (quoted ev ++ " is a reserved event name"))
      else log (SocketEmit h ev args)
  | None => throw (JStr "TypeError: Cannot read properties of null")
  end.

Definition forwarded_events : list string :=
  [ "new_message"; "message_read";
    "room_joined"; "room_left";
    "user_typing";
    "user_online"; "user_offline";
    "room_joined"; "room_left";
    "user_joined_room" ].

(** One [this.socket.on(ev, data => this.emit(ev, data))] per entry of
    [forwarded_events], in the order the source writes them. *)
Definition setupEventListeners : M unit :=
  s <- get ;;
  match socket s with
  | None => ret tt
  | Some h => for_each (λ ev, socket_on h ev (Forward ev)) forwarded_events
  end.

(** The body of each handler; [h] is the socket it was registered on,
    whose promise the closure's [resolve] belongs to. *)
Definition run_handler (h : nat) (hd : Handler) (data : JsVal) : M unit :=
  match hd with
  | OnConnect =>
      modify (set_isConnected true) ;;;
      modify (set_reconnectAttempts 0) ;;;
      setupEventListeners ;;;
      resolve h true
  | OnConnectError =>
      console_error "WebSocket connection error:" ;;;
      modify (set_isConnected false) ;;;
      resolve h false
  | OnDisconnect =>
      modify (set_isConnected false) ;;;
      emit "disconnected" (JObj [("reason", data)])
  | OnError =>
      console_error "WebSocket error:" ;;;
      emit "error" data
  | Forward ev =>
      emit ev data
  end.

Definition handlers_for (ev : string) (h : nat) (s : Service) : list Handler :=
  match sockets s !! h with
  | Some so => (filter (λ p, p.1 = ev) (sock_handlers so)).*2
  | None => []
  end.

(** The socket dispatches [ev] to a copy of the handlers registered for
    it, in registration order. *)
Definition fire (h : nat) (ev : string) (data : JsVal) : M unit :=
  s <- get ;;
  for_each (λ hd, run_handler h hd data) (handlers_for ev h s).

(** Events raised by the library.  It sets [socket.connected] before it
    fires [connect], and clears it before it fires [disconnect]. *)
Definition socket_connects (h : nat) : M unit :=
  alter_socket (with_connected true) h ;;; fire h "connect" JUndefined.

Definition socket_drops (h : nat) (reason : string) : M unit :=
  alter_socket (with_connected false) h ;;; fire h "disconnect" (JStr reason).

Definition socket_connect_error (h : nat) (err : JsVal) : M unit :=
  fire h "connect_error" err.

Definition socket_error (h : nat) (err : JsVal) : M unit :=
  fire h "error" err.

Definition server_event (h : nat) (ev : string) (data : JsVal) : M unit :=
  fire h ev data.

(** [socket.disconnect()]: a connected socket fires [disconnect] with the
    reason "io client disconnect" on the spot. *)
Definition socket_disconnect (h : nat) : M unit :=
  log (SocketDisconnect h) ;;;
  s <- get ;;
  let was := match sockets s !! h with Some so => sock_connected so | None => false end in
  alter_socket with_closed h ;;;
  when was (fire h "disconnect" (JStr "io client disconnect")).

(** ** Token retrieval *)

Inductive FetchOutcome :=
| Resolves (v : option string)
| Rejects (e : JsVal).

(** [store i] is what the [i]-th read of the secure store made by one
    call does: it resolves to a string or to null, or it rejects. *)
Definition getItemAsync (store : nat -> FetchOutcome) (i : nat) (key : string)
  : M (option string) :=
  log (GetItemAsync key) ;;;
  match store i with
  | Resolves v => ret v
  | Rejects e => throw e
  end.

(** One pass through the body of the [for] loop of
    [getAuthTokenWithRetry]: [Some token] when the body returns from the
    function, [None] when it falls through to the next iteration. *)
Definition attempt (store : nat -> FetchOutcome) (maxRetries delay : Z) (i : nat)
  : M (option string) :=
  try_catch
    (token <- getItemAsync store i "auth_token" ;;
     if truthy token then ret token
     else
       when (Z.of_nat i <? maxRetries - 1)%Z (sleep delay) ;;;
       ret None)
    (λ error,
       console_error ("Error getting auth token on attempt "
                      ++ pretty (Z.of_nat i + 1) ++ ":") ;;;
       when (Z.of_nat i <? maxRetries - 1)%Z (sleep delay) ;;;
       ret None).

(** The loop itself, with [remaining] iterations to go from index [i]. *)
Fixpoint retry_loop (store : nat -> FetchOutcome) (maxRetries delay : Z)
    (remaining i : nat) : M (option string) :=
  match remaining with
  | O => ret None
  | S remaining' =>
      r <- attempt store maxRetries delay i ;;
      match r with
      | Some token => ret (Some token)
      | None => retry_loop store maxRetries delay remaining' (S i)
      end
  end.

(** [connect] calls it with the defaults, [maxRetries = 3] and
    [delay = 1000]. *)
Definition getAuthTokenWithRetry (store : nat -> FetchOutcome)
    (maxRetries delay : Z) : M (option string) :=
  retry_loop store maxRetries delay (Z.to_nat maxRetries) 0.

(** ** Connection manager *)

(** What [connect] hands back: a promise already resolved, or one that
    waits for the [connect] / [connect_error] event of socket [h]. *)
Inductive ConnectResult :=
| Resolved (b : bool)
| Pending (h : nat).

(** Lines 78-124 of [connect]: runs once a token has been obtained. *)
Definition open_socket (token : string) (userId : option string) : M ConnectResult :=
  modify (set_currentUserId (or_null userId)) ;;;
  s <- get ;;
  h <- io token (currentUserId s) ;;
  modify (set_socket (Some h)) ;;;
  s <- get ;;
  match socket s with
  | None => ret (Resolved false)
  | Some h =>
      socket_on h "connect" OnConnect ;;;
      socket_on h "connect_error" OnConnectError ;;;
      socket_on h "disconnect" OnDisconnect ;;;
      socket_on h "error" OnError ;;;
      ret (Pending h)
  end.

Definition connect_failed (error : JsVal) : M ConnectResult :=
  console_error "Failed to connect to WebSocket:" ;;;
  ret (Resolved false).

Definition connect (store : nat -> FetchOutcome) (userId : option string)
  : M ConnectResult :=
  try_catch
    (s <- get ;;
     if socket_connected s then ret (Resolved true)
     else
       token <- getAuthTokenWithRetry store 3 1000 ;;
       if negb (truthy token) then
         console_error "No auth token found for WebSocket connection after retries" ;;;
         ret (Resolved false)
       else open_socket (default "" token) userId)
    connect_failed.

(** [connect] again, for either answer of the library to the configured
    URI [ENV.WEBSOCKET_URL]: [io_for true] is [io], [io_for false] is the
    call that throws.  A configured URI is fixed for the life of the
    application, so [accepted] is the same on every call. *)
Definition io_for (accepted : bool) (token : string) (uid : option string) : M nat :=
  if accepted then io token uid else throw (JStr "URI too long").

Definition open_socket_for (accepted : bool) (token : string) (userId : option string)
  : M ConnectResult :=
  modify (set_currentUserId (or_null userId)) ;;;
  s <- get ;;
  h <- io_for accepted token (currentUserId s) ;;
  modify (set_socket (Some h)) ;;;
  s <- get ;;
  match socket s with
  | None => ret (Resolved false)
  | Some h =>
      socket_on h "connect" OnConnect ;;;
      socket_on h "connect_error" OnConnectError ;;;
      socket_on h "disconnect" OnDisconnect ;;;
      socket_on h "error" OnError ;;;
      ret (Pending h)
  end.

Definition connect_for (accepted : bool) (store : nat -> FetchOutcome)
    (userId : option string) : M ConnectResult :=
  try_catch
    (s <- get ;;
     if socket_connected s then ret (Resolved true)
     else
       token <- getAuthTokenWithRetry store 3 1000 ;;
       if negb (truthy token) then
         console_error "No auth token found for WebSocket connection after retries" ;;;
         ret (Resolved false)
       else open_socket_for accepted (default "" token) userId)
    connect_failed.

(** The value an [await] on the result of [connect] yields in state [s],
    if the promise is settled by then. *)
Definition awaited (r : ConnectResult) (s : Service) : option bool :=
  match r with
  | Resolved b => Some b
  | Pending h => sockets s !! h ≫= sock_settled
  end.

Definition disconnect : M unit :=
  s <- get ;;
  match socket s with
  | Some h =>
      socket_disconnect h ;;;
      modify (set_socket None) ;;;
      modify (set_isConnected false) ;;;
      modify (set_currentUserId None)
  | None => ret tt
  end.

Definition reconnect (store : nat -> FetchOutcome) : M ConnectResult :=
  disconnect ;;;
  s <- get ;;
  sleep (reconnectDelay s) ;;;
  s <- get ;;
  connect store (or_null (currentUserId s)).

(** [!!token] of one read of the store; a rejected read is logged and
    counts as not authenticated. *)
Definition isAuthenticated (store : nat -> FetchOutcome) : M bool :=
  try_catch
    (token <- getItemAsync store 0 "auth_token" ;;
     ret (truthy token))
    (λ error,
       console_error "Error checking authentication status:" ;;;
       ret false).

(** ** Getters *)

Definition connected (s : Service) : bool :=
  isConnected s && socket_connected s.

Definition userId (s : Service) : option string := currentUserId s.

Record ConnectionStatus := mkStatus {
  status_connected : bool;
  status_reconnectAttempts : Z;
  status_userId : option string
}.

Definition getConnectionStatus (s : Service) : ConnectionStatus :=
  {| status_connected := connected s;
     status_reconnectAttempts := reconnectAttempts s;
     status_userId := currentUserId s |}.

(** ** Room, message, typing, presence and invitation operations *)

Definition joinRoom (recipientId : string) : M unit :=
  s <- get ;;
  if negb (socket_connected s) then
    console_error "Cannot join room: WebSocket not connected"
  else
    socket_emit "join_room" [JObj [("recipientId", JStr recipientId)]].

Definition leaveRoom (recipientId : string) : M unit :=
  s <- get ;;
  if negb (socket_connected s) then
    console_error "Cannot leave room: WebSocket not connected"
  else
    socket_emit "leave_room" [JObj [("recipientId", JStr recipientId)]].

(** [type] defaults to ['TEXT'] when the caller leaves it out. *)
Definition sendMessage (recipientId content : string) (type : option string) : M bool :=
  s <- get ;;
  if negb (socket_connected s) then
    console_error "Cannot send message: WebSocket not connected" ;;;
    ret false
  else
    socket_emit "send_message"
      [JObj [("recipientId", JStr recipientId);
             ("content", JStr content);
             ("type", JStr (default "TEXT" type))]] ;;;
    ret true.

Definition markMessageAsRead (messageId : string) : M unit :=
  s <- get ;;
  if negb (socket_connected s) then
    console_error "Cannot mark message as read: WebSocket not connected"
  else
    socket_emit "mark_message_read" [JObj [("messageId", JStr messageId)]].

Definition sendTypingStatus (recipientId : string) (isTyping : bool) : M unit :=
  s <- get ;;
  if negb (socket_connected s) then
    console_error "Cannot send typing status: WebSocket not connected"
  else
    socket_emit "typing"
      [JObj [("recipientId", JStr recipientId); ("isTyping", JBool isTyping)]].

Definition getActiveUsers : M unit :=
  s <- get ;;
  if negb (socket_connected s) then
    console_error "Cannot get active users: WebSocket not connected"
  else
    socket_emit "get_active_users" [].

Definition sendChatInvitation (recipientId message : string) : M bool :=
  s <- get ;;
  if negb (socket_connected s) then
    console_error "Cannot send chat invitation: WebSocket not connected" ;;;
    ret false
  else
    socket_emit "send_chat_invitation"
      [JObj [("recipientId", JStr recipientId); ("message", JStr message)]] ;;;
    ret true.

Definition acceptChatInvitation (invitationId : string) : M bool :=
  s <- get ;;
  if negb (socket_connected s) then
    console_error "Cannot accept chat invitation: WebSocket not connected" ;;;
    ret false
  else
    socket_emit "accept_chat_invitation" [JObj [("invitationId", JStr invitationId)]] ;;;
    ret true.

Definition rejectChatInvitation (invitationId : string) : M bool :=
  s <- get ;;
  if negb (socket_connected s) then
    console_error "Cannot reject chat invitation: WebSocket not connected" ;;;
    ret false
  else
    socket_emit "reject_chat_invitation" [JObj [("invitationId", JStr invitationId)]] ;;;
    ret true.

Definition emitEvent (event : string) (data : JsVal) : M bool :=
  s <- get ;;
  if negb (socket_connected s) then
    console_error ("Cannot emit " ++ event ++ ": WebSocket not connected") ;;;
    ret false
  else
    socket_emit event [data] ;;;
    ret true.

(** The nine guarded operations as one family.  The result is [Some b]
    for the methods that return a boolean and [None] for those that
    return nothing. *)
Inductive Guarded :=
| JoinRoom (recipientId : string)
| LeaveRoom (recipientId : string)
| SendMessage (recipientId content : string) (type : option string)
| MarkMessageAsRead (messageId : string)
| SendTypingStatus (recipientId : string) (isTyping : bool)
| GetActiveUsers
| SendChatInvitation (recipientId message : string)
| AcceptChatInvitation (invitationId : string)
| RejectChatInvitation (invitationId : string).

Definition returning_bool (m : M bool) : M (option bool) := b <- m ;; ret (Some b).
Definition returning_nothing (m : M unit) : M (option bool) := m ;;; ret None.

Definition guarded (g : Guarded) : M (option bool) :=
  match g with
  | JoinRoom r => returning_nothing (joinRoom r)
  | LeaveRoom r => returning_nothing (leaveRoom r)
  | SendMessage r c t => returning_bool (sendMessage r c t)
  | MarkMessageAsRead m => returning_nothing (markMessageAsRead m)
  | SendTypingStatus r b => returning_nothing (sendTypingStatus r b)
  | GetActiveUsers => returning_nothing getActiveUsers
  | SendChatInvitation r m => returning_bool (sendChatInvitation r m)
  | AcceptChatInvitation i => returning_bool (acceptChatInvitation i)
  | RejectChatInvitation i => returning_bool (rejectChatInvitation i)
  end.

(** ** Everything that can happen to the service

    Calls of the public methods, the continuations of the two [async]
    methods after an [await] during which other code ran, and the events
    the socket library raises on any socket it has handed out.  These
    are the runs of an application whose configured URI the library
    accepts. *)
Inductive Op :=
| CallConnect (store : nat -> FetchOutcome) (userId : option string)
| ResumeConnect (token : string) (userId : option string)
| CallDisconnect
| CallReconnect (store : nat -> FetchOutcome)
| ResumeReconnect (store : nat -> FetchOutcome)
| CallIsAuthenticated (store : nat -> FetchOutcome)
| CallGuarded (g : Guarded)
| CallEmitEvent (event : string) (data : JsVal)
| CallOn (event : string) (listener : Listener)
| CallOff (event : string) (listener : Listener)
| SocketConnects (h : nat)
| SocketDrops (h : nat) (reason : string)
| SocketConnectError (h : nat) (err : JsVal)
| SocketError (h : nat) (err : JsVal)
| ServerEvent (h : nat) (event : string) (data : JsVal).

Definition after {A} (m : M A) (s : Service) : Service := (m s).2.

Definition step (op : Op) (s : Service) : Service :=
  match op with
  | CallConnect store u => after (connect store u) s
  | ResumeConnect token u => after (try_catch (open_socket token u) connect_failed) s
  | CallDisconnect => after disconnect s
  | CallReconnect store => after (reconnect store) s
  | ResumeReconnect store => after (connect store (or_null (currentUserId s))) s
  | CallIsAuthenticated store => after (isAuthenticated store) s
  | CallGuarded g => after (guarded g) s
  | CallEmitEvent ev d => after (emitEvent ev d) s
  | CallOn ev l => after (on ev l) s
  | CallOff ev l => after (off ev l) s
  | SocketConnects h => after (socket_connects h) s
  | SocketDrops h r => after (socket_drops h r) s
  | SocketConnectError h e => after (socket_connect_error h e) s
  | SocketError h e => after (socket_error h e) s
  | ServerEvent h ev d => after (server_event h ev d) s
  end.

Definition run (ops : list Op) (s : Service) : Service :=
  foldl (λ s op, step op s) s ops.

(** When the library can raise an event on socket [h]: [connect] and
    [connect_error] only on a socket that is neither connected nor
    closed by hand, [disconnect] and server events only on a connected
    one.  Method calls are always possible. *)
Definition socket_is (p : Socket -> bool) (h : nat) (s : Service) : bool :=
  match sockets s !! h with
  | Some so => p so
  | None => false
  end.

Definition possible (op : Op) (s : Service) : bool :=
  match op with
  | SocketConnects h | SocketConnectError h _ =>
      socket_is (λ so, negb (sock_connected so) && negb (sock_closed so)) h s
  | SocketDrops h _ | ServerEvent h _ _ => socket_is sock_connected h s
  | SocketError h _ => socket_is (λ _, true) h s
  | _ => true
  end.

Fixpoint feasible (ops : list Op) (s : Service) : bool :=
  match ops with
  | [] => true
  | op :: ops' => possible op s && feasible ops' (step op s)
  end.

(** The part of the trace written since the state [s0]. *)
Definition since (s0 s : Service) : list Effect :=
  drop (length (trace s0)) (trace s).

Definition listener_calls (tr : list Effect) : list (Listener * JsVal) :=
  omap (λ e, match e with ListenerCall l d => Some (l, d) | _ => None end) tr.

Definition socket_emits (tr : list Effect) : list (nat * string * list JsVal) :=
  omap (λ e, match e with SocketEmit h ev a => Some (h, ev, a) | _ => None end) tr.

Definition console_errors (tr : list Effect) : list string :=
  omap (λ e, match e with ConsoleError m => Some m | _ => None end) tr.

(** Token store reads and timers, in order. *)
Definition waits (tr : list Effect) : list Effect :=
  omap (λ e, match e with GetItemAsync _ | SetTimeout _ => Some e | _ => None end) tr.

(** What one dispatch of [event] with [data] to the listeners [ls] adds
    to the trace. *)
Definition dispatch_trace (event : string) (data : JsVal) (ls : list Listener)
  : list Effect :=
  ls ≫= λ l, ListenerCall l data ::
             (if throws l data
              then [ConsoleError ("Error in event listener for " ++ event ++ ":")]
              else []).

(** Whether a read of the token store produces a usable token. *)
Definition yields_token (o : FetchOutcome) : bool :=
  match o with
  | Resolves v => truthy v
  | Rejects _ => false
  end.

(** The token store reads and timers of [remaining] passes of the retry
    loop, starting at index [i], when no pass finds a token. *)
Fixpoint retry_waits (maxRetries delay : Z) (remaining i : nat) : list Effect :=
  match remaining with
  | O => []
  | S remaining' =>
      GetItemAsync "auth_token" ::
      (if (Z.of_nat i <? maxRetries - 1)%Z then [SetTimeout delay] else [])
      ++ retry_waits maxRetries delay remaining' (S i)
  end.

(** The state [open_socket] leaves behind. *)
Definition opened (token : string) (u : option string) (s : Service) : Service :=
  {| sockets := sockets s ++
       [mkSocket false
          [("connect", OnConnect); ("connect_error", OnConnectError);
           ("disconnect", OnDisconnect); ("error", OnError)]
          token (or_null u) None false];
     socket := Some (length (sockets s));
     isConnected := isConnected s;
     reconnectAttempts := reconnectAttempts s;
     maxReconnectAttempts := maxReconnectAttempts s;
     reconnectDelay := reconnectDelay s;
     currentUserId := or_null u;
     eventListeners := eventListeners s;
     trace := trace s ++ [Io (length (sockets s)) token (or_null u)] |}.

(** ** Vocabulary for the proofs *)

(** [m] keeps [P]: the state after [m] satisfies [P] whenever the state
    before does, whether [m] returns or throws. *)
Definition keeps {A} (P : Service → Prop) (m : M A) : Prop :=
  ∀ s, P s → P (m s).2.

(** [m] never throws. *)
Definition safe {A} (m : M A) : Prop :=
  ∀ s, ∃ a, (m s).1 = Returns a.

(** Predicates that do not look at what event handlers write: the trace,
    the socket store, [isConnected], and [reconnectAttempts] when it is
    set to zero. *)
Record Stable (P : Service → Prop) : Prop := {
  stable_trace : ∀ v s, P s → P (set_trace v s);
  stable_sockets : ∀ v s, P s → P (set_sockets v s);
  stable_isConnected : ∀ v s, P s → P (set_isConnected v s);
  stable_attempts : ∀ s, P s → P (set_reconnectAttempts 0 s)
}.

(** Predicates that in addition ignore the socket handle and the cached
    user id. *)
Record Framed (P : Service → Prop) : Prop := {
  framed_stable : Stable P;
  framed_socket : ∀ v s, P s → P (set_socket v s);
  framed_userId : ∀ v s, P s → P (set_currentUserId v s)
}.

(** The server-side event each guarded operation emits. *)
Definition wire_name (g : Guarded) : string :=
  match g with
  | JoinRoom _ => "join_room"
  | LeaveRoom _ => "leave_room"
  | SendMessage _ _ _ => "send_message"
  | MarkMessageAsRead _ => "mark_message_read"
  | SendTypingStatus _ _ => "typing"
  | GetActiveUsers => "get_active_users"
  | SendChatInvitation _ _ => "send_chat_invitation"
  | AcceptChatInvitation _ => "accept_chat_invitation"
  | RejectChatInvitation _ => "reject_chat_invitation"
  end.

(** A registry as [on] and [off] leave it: every set is free of
    duplicates and no key holds an empty set. *)
Definition tidy_registry (s : Service) : Prop :=
  ∀ e ls, eventListeners s !! e = Some ls → NoDup ls ∧ ls ≠ [].

(** What one pass of the retry loop hands back for a given read. *)
Definition attempt_result (o : FetchOutcome) : option string :=
  match o with
  | Resolves v => if truthy v then v else None
  | Rejects _ => None
  end.


(** The four ways the service and the library rewrite a socket in place. *)
Inductive SocketUpdate : (Socket → Socket) → Prop :=
| update_handlers hs : SocketUpdate (add_handlers hs)
| update_connected b : SocketUpdate (with_connected b)
| update_closed : SocketUpdate with_closed
| update_settle b : SocketUpdate (settle b).

(** Predicates that survive everything the service does to its state:
    log lines, the two flags, the registry, an in-place update of a
    socket, opening a socket ([opened]) and what [disconnect] writes. *)
Record Lasting (P : Service → Prop) : Prop := {
  lasting_trace : ∀ v s, P s → P (set_trace v s);
  lasting_isConnected : ∀ v s, P s → P (set_isConnected v s);
  lasting_attempts : ∀ s, P s → P (set_reconnectAttempts 0 s);
  lasting_registry : ∀ v s, P s → P (set_eventListeners v s);
  lasting_update : ∀ f h s, SocketUpdate f → P s →
                            P (set_sockets (alter f h (sockets s)) s);
  lasting_open : ∀ tok u s, P s → P (opened tok u s);
  lasting_close : ∀ s, P s →
                       P (set_currentUserId None (set_isConnected false (set_socket None s)))
}.

(** What the operations other than [connect], [disconnect] and
    [reconnect] do to a socket in place: a forwarder is added by
    [setupEventListeners], the library sets or clears [connected], a
    handler settles the promise. *)
Inductive HandlerUpdate : (Socket → Socket) → Prop :=
| update_forward ev : ev ∈ forwarded_events → HandlerUpdate (add_handlers [(ev, Forward ev)])
| update_flag b : HandlerUpdate (with_connected b)
| update_promise b : HandlerUpdate (settle b).

(** Predicates that survive those operations: they may depend on the
    socket handle and on the cached user id, which only [connect],
    [disconnect] and [reconnect] write. *)
Record Undisturbed (P : Service → Prop) : Prop := {
  undisturbed_trace : ∀ v s, P s → P (set_trace v s);
  undisturbed_isConnected : ∀ v s, P s → P (set_isConnected v s);
  undisturbed_attempts : ∀ s, P s → P (set_reconnectAttempts 0 s);
  undisturbed_registry : ∀ v s, P s → P (set_eventListeners v s);
  undisturbed_update : ∀ f h s, HandlerUpdate f → P s →
                                P (set_sockets (alter f h (sockets s)) s)
}.

(** The operations that neither open nor close a socket: every method
    call and socket event except [connect], [disconnect], [reconnect]
    and the continuations of the two asynchronous ones. *)
Definition leaves_handle (op : Op) : bool :=
  match op with
  | CallConnect _ _ | ResumeConnect _ _ | CallDisconnect
  | CallReconnect _ | ResumeReconnect _ => false
  | _ => true
  end.

(** Socket [h] is the current socket, the cached user id is [uid], and
    the handler [connect] registered is the one handler the socket has
    for its [connect] event. *)
Definition current_with (h : nat) (uid : option string) (s : Service) : Prop :=
  socket s = Some h ∧ currentUserId s = uid ∧ handlers_for "connect" h s = [OnConnect].

(** The promise of socket [h] is settled with [b]. *)
Definition settled_with (h : nat) (b : bool) (s : Service) : Prop :=
  sockets s !! h ≫= sock_settled = Some b.

(** The four handlers [connect] registers on the socket it opens. *)
Definition connect_handlers : list (string * Handler) :=
  [("connect", OnConnect); ("connect_error", OnConnectError);
   ("disconnect", OnDisconnect); ("error", OnError)].

(** The operations that deliver a [connect] or a [connect_error] event
    to socket [h]. *)
Definition terminal_for (h : nat) (op : Op) : bool :=
  match op with
  | SocketConnects h' | SocketConnectError h' _ => bool_decide (h' = h)
  | ServerEvent h' ev _ =>
      bool_decide (h' = h) && bool_decide (ev ∈ ["connect"; "connect_error"])
  | _ => false
  end.

(** In-place updates of a socket that do not resolve its promise. *)
Inductive PromiseFree : (Socket → Socket) → Prop :=
| free_forward ev : ev ∈ forwarded_events → PromiseFree (add_handlers [(ev, Forward ev)])
| free_flag b : PromiseFree (with_connected b)
| free_closed : PromiseFree with_closed.

(** Socket [h] still waits for its first [connect] or [connect_error]:
    its promise is not settled, and its handlers are the four of
    [connect] followed by forwarders only. *)
Definition awaiting (h : nat) (s : Service) : Prop :=
  ∃ so fwd, sockets s !! h = Some so ∧ sock_settled so = None ∧
            sock_handlers so = (connect_handlers ++ fwd)%list ∧
            Forall (λ p, ∃ ev, ev ∈ forwarded_events ∧ p = (ev, Forward ev)) fwd.

(** The current socket exists and was opened with the cached user id. *)
Definition socket_matches_userId (s : Service) : Prop :=
  ∀ h, socket s = Some h →
       ∃ so, sockets s !! h = Some so ∧ sock_userId so = currentUserId s.

(** The handlers a socket carries once its [connect] event has run for
    the first time: the four of [connect] and one round of
    [setupEventListeners]. *)
Definition handlers_after_connect : list (string * Handler) :=
  [("connect", OnConnect); ("connect_error", OnConnectError);
   ("disconnect", OnDisconnect); ("error", OnError)]
  ++ ((λ ev, (ev, Forward ev)) <$> forwarded_events).

(** The inbound events that [setupEventListeners] subscribes to once. *)
Definition forwarded_once : list string :=
  ["new_message"; "message_read"; "user_typing";
   "user_online"; "user_offline"; "user_joined_room"].

End WithListeners.

(** ** Listeners that call back into the registry

    [emit] above hands the listeners of the event to [for_each], which
    is the source's [listeners.forEach] as long as no listener touches
    the set while the dispatch runs.  The source iterates the [Set]
    object itself, so a listener that calls [on] or [off] for the event
    being dispatched changes who is called in the same pass.  What
    follows is that dispatch: listeners may call [on] and [off], and the
    iteration walks the live set. *)

(** A call a listener makes on the service while it runs. *)
Inductive Callback :=
| OnCall (event : string) (listener : Listener)
| OffCall (event : string) (listener : Listener).

Definition callback_event (c : Callback) : string :=
  match c with
  | OnCall event _ | OffCall event _ => event
  end.

(** The calls a listener makes when it is called with [data], in order,
    before it returns or throws. *)
Class Callbacks := callbacks : Listener -> JsVal -> list Callback.

(** The [Set] a dispatch iterates, as [Set.prototype.forEach] sees it:
    the entries in insertion order, where a deleted entry leaves an empty
    slot behind and an added one goes to the end; and whether the
    registry still holds this object under the event's key ([off]
    removes the key of a set it has emptied, and a later [on] makes a
    new set). *)
Record LiveSet := mkLiveSet {
  slots : list (option Listener);
  attached : bool
}.

(** [Set.prototype.add] *)
Definition live_add (l : Listener) (ls : LiveSet) : LiveSet :=
  if decide (Some l ∈ slots ls) then ls
  else mkLiveSet (slots ls ++ [Some l]) (attached ls).

(** [Set.prototype.delete], followed by [off]'s test of [size === 0]. *)
Definition live_delete (l : Listener) (ls : LiveSet) : LiveSet :=
  let slots' := (λ x, if decide (x = Some l) then None else x) <$> slots ls in
  mkLiveSet slots' (existsb (λ x, bool_decide (is_Some x)) slots').

(** What a call made by a listener does to the set under iteration,
    which is the set of [event]. *)
Definition react (event : string) (ls : LiveSet) (c : Callback) : LiveSet :=
  if attached ls && String.eqb (callback_event c) event then
    match c with
    | OnCall _ l => live_add l ls
    | OffCall _ l => live_delete l ls
    end
  else ls.

(** The set under iteration and the registry agree: as long as the set
    is attached, it is what the registry holds for [event]. *)
Definition tracks (event : string) (ls : LiveSet) (s : Service) : Prop :=
  attached ls = true → eventListeners s !! event = Some (omap id (slots ls)).

Section LiveDispatch.

Context {L : Listeners} {C : Callbacks}.

Definition perform (c : Callback) : M unit :=
  match c with
  | OnCall event l => on event l
  | OffCall event l => off event l
  end.

(** [listener(data)] *)
Definition call_live (l : Listener) (data : JsVal) : M unit :=
  log (ListenerCall l data) ;;;
  for_each perform (callbacks l data) ;;;
  if throws l data then throw (JStr "listener error") else ret tt.

(** [listeners.forEach(listener => { try { listener(data) } catch ... })]
    from slot [i] on.  A listener that removes itself and registers
    again is visited again, so the iteration need not end: [fuel] bounds
    the number of slots looked at, and the result tells whether the
    iteration came to its end. *)
Fixpoint forEach_live (fuel : nat) (event : string) (data : JsVal)
    (i : nat) (ls : LiveSet) : M bool :=
  match fuel with
  | O => ret false
  | S fuel' =>
      match slots ls !! i with
      | None => ret true
      | Some None => forEach_live fuel' event data (S i) ls
      | Some (Some l) =>
          try_catch (call_live l data)
                    (λ error, console_error ("Error in event listener for " ++ event ++ ":")) ;;;
          forEach_live fuel' event data (S i) (foldl (react event) ls (callbacks l data))
      end
  end.

Definition emit_live (fuel : nat) (event : string) (data : JsVal) : M bool :=
  s <- get ;;
  match eventListeners s !! event with
  | Some listeners => forEach_live fuel event data 0 (mkLiveSet (Some <$> listeners) true)
  | None => ret true
  end.

End LiveDispatch.

(** ** Concrete services used in the examples below *)

(** Listener [1] subscribes listener [9] to another event. *)
Definition subscribing_elsewhere : Callbacks :=
  λ l _, if Nat.eqb l 1 then [OnCall "user_online" 9%nat] else [].

(** Every listener takes itself off [new_message] and registers again. *)
Definition restless : Callbacks :=
  λ l _, [OffCall "new_message" l; OnCall "new_message" l].

(** Listener [1] unsubscribes listener [2] from [new_message] and
    subscribes listener [3]; listener [3] subscribes listener [9] to
    another event. *)
Definition meddling : Callbacks :=
  λ l _, if Nat.eqb l 1 then [OffCall "new_message" 2%nat; OnCall "new_message" 3%nat]
         else if Nat.eqb l 3 then [OnCall "user_online" 9%nat]
         else [].

(** Listeners that never throw. *)
Definition quiet : Listeners := λ _ _, false.

(** Listener [1] throws on every call, the others return. *)
Definition first_throws : Listeners := λ l _, Nat.eqb l 1.

Definition token_store (token : string) : nat → FetchOutcome :=
  λ _, Resolves (Some token).

Definition empty_store : nat → FetchOutcome := λ _, Resolves None.

(** A new service with the defaults of [ENV]: 5 attempts, 1000 ms. *)
Definition fresh : Service := init 5 1000.

(** [connect("u1")] with token ["tok"], then the socket connects. *)
Definition connected_as_u1 : Service :=
  run (L := quiet)
    [CallConnect (token_store "tok") (Some "u1"); SocketConnects 0] fresh.

(** [connect] is called twice before either socket has connected, so the
    second call opens a second socket and the service lets go of the
    first; both connect; then the first one is dropped by the server. *)
Definition replaced_socket_ops : list Op :=
  [CallConnect (token_store "tok") (Some "u1");
   CallConnect (token_store "tok") (Some "u1");
   SocketConnects 0;
   SocketConnects 1;
   SocketDrops 0 "io server disconnect"].

Definition replaced_socket : Service := run (L := quiet) replaced_socket_ops fresh.

Definition forwarded_names : list string :=
  ["new_message"; "message_read"; "room_joined"; "room_left";
   "user_typing"; "user_online"; "user_offline"; "user_joined_room"].

(** Connected as above, with listener [7] registered for each of the
    eight inbound events. *)
Definition listening : Service :=
  run (L := quiet) ((λ ev, CallOn ev 7%nat) <$> forwarded_names) connected_as_u1.

(** Listeners [1] and [2] registered for [new_message]. *)
Definition two_listeners : Service :=
  run (L := quiet) [CallOn "new_message" 1%nat; CallOn "new_message" 2%nat] fresh.

(** ** ChatScreen: what its listeners do to the message list
       (src/screens/ChatScreen.tsx) *)

Record User := mkUser {
  user_id : string;
  user_fullName : string;
  user_email : string;
  user_avatarUrl : option string
}.

Record Message := mkMessage {
  msg_id : string;
  msg_content : string;
  msg_senderId : string;
  msg_recipientId : string;
  msg_createdAt : string;
  msg_sender : User;
  msg_recipient : User;
  msg_type : string;
  msg_status : string;
  msg_readAt : option string
}.

Record MessageReadEvent := mkMessageReadEvent {
  messageId : string;
  readBy : string;
  readAt : string
}.

(** The update [handleNewMessage] hands to [setMessages]: a message whose
    id is already in the list is dropped, any other is appended. *)
Definition handleNewMessage (message : Message) (prev : list Message) : list Message :=
  if existsb (λ m, String.eqb (msg_id m) (msg_id message)) prev
  then prev
  else prev ++ [message].

(** [{ ...msg, status: 'READ', readAt }] *)
Definition mark_read (at_ : string) (msg : Message) : Message :=
  mkMessage (msg_id msg) (msg_content msg) (msg_senderId msg) (msg_recipientId msg)
    (msg_createdAt msg) (msg_sender msg) (msg_recipient msg) (msg_type msg)
    "READ" (Some at_).

(** The update [handleMessageRead] hands to [setMessages]. *)
Definition handleMessageRead (data : MessageReadEvent) (prev : list Message)
  : list Message :=
  (λ msg, if String.eqb (msg_id msg) (messageId data)
          then mark_read (readAt data) msg
          else msg) <$> prev.

(** ** Environment configuration (src/config/env.ts)

    The service takes its reconnect settings from [ENV], which this
    module fills from the Expo config and [process.env].  Config values
    and numbers, and the built-ins that convert them, belong to the
    JavaScript engine and are taken as given. *)

Class Builtins (V Num : Type) := {
  js_String : V → string;               (* String(v) of a config value *)
  String_num : Num → string;            (* String(n) *)
  parseInt10 : string → option Num      (* parseInt(s, 10); [None] is NaN *)
}.

(** What a lookup by key yields in [Constants.expoConfig?.extra] ([None]
    for the whole when [expoConfig] or [extra] is missing) and in
    [process.env]; a key is absent when the lookup yields [undefined]. *)
Record Environment (V : Type) := mkEnvironment {
  expo_extra : option (gmap string V);
  process_env : gmap string string
}.
Arguments mkEnvironment {V} _ _.
Arguments expo_extra {V} _.
Arguments process_env {V} _.

(** A call that returns, or [throw new Error(message)]. *)
Inductive Result (A : Type) :=
| Ok (a : A)
| Failed (message : string).
Arguments Ok {A} a.
Arguments Failed {A} message.

Section EnvConfig.

Context {V Num : Type} `{!Builtins V Num}.

Definition getEnvVar (env : Environment V) (key : string) (fallback : option string)
  : Result string :=
  match expo_extra env ≫= (λ extra, extra !! key) with
  | Some expoValue => Ok (js_String expoValue)
  | None =>
      match process_env env !! key with
      | Some processValue => Ok processValue
      | None =>
          match fallback with
          | Some f => Ok f
          | None => Failed ("Environment variable " ++ key
                            ++ " is not defined and no fallback provided")
          end
      end
  end.

Definition getNumberEnvVar (env : Environment V) (key : string) (fallback : Num) : Num :=
  match getEnvVar env key (Some (String_num fallback)) with
  | Ok value =>
      match parseInt10 value with
      | Some parsed => parsed
      | None => fallback
      end
  | Failed _ => fallback
  end.

Definition requiredVars : list string := ["API_BASE_URL"; "WEBSOCKET_URL"].

(** The loop of [validateEnv]: a variable whose [getEnvVar] throws is
    pushed onto [missing]. *)
Definition missing_vars (env : Environment V) : list string :=
  foldl (λ (missing : list string) varName,
           match getEnvVar env varName None with
           | Ok _ => missing
           | Failed _ => (missing ++ [varName])%list
           end) [] requiredVars.

Definition validateEnv (env : Environment V) : Result unit :=
  let missing := missing_vars env in
  if (0 <? length missing)%nat
  then Failed ("Missing required environment variables: " ++ String.concat ", " missing)
  else Ok tt.

(** The value configured for [key], if any: the Expo config first, then
    [process.env]. *)
Definition configured (env : Environment V) (key : string) : option string :=
  match expo_extra env ≫= (λ extra, extra !! key) with
  | Some v => Some (js_String v)
  | None => process_env env !! key
  end.

End EnvConfig.

(** A stand-in for the engine in the examples: config values are strings,
    numbers are integers, and only ["5"] and ["1000"] are read as numbers. *)
Definition example_builtins : Builtins string Z :=
  {| js_String := id;
     String_num := pretty;
     parseInt10 := λ s, if String.eqb s "5" then Some 5
                        else if String.eqb s "1000" then Some 1000 else None |}.

(** ** More concrete values for the examples *)


(** [connect("u1")] has opened socket 0, which has not connected yet. *)
Definition pending_u1 : Service :=
  run (L := quiet) [CallConnect (token_store "tok") (Some "u1")] fresh.

(** What the application may do while that socket is still connecting:
    a screen subscribes, tries to send, checks the token, and the socket
    reports an error. *)
Definition calls_while_pending : list Op :=
  [CallOn "new_message" 7%nat;
   CallGuarded (SendMessage "u2" "hi" None);
   CallIsAuthenticated (token_store "tok");
   SocketError 0 (JStr "transport error");
   CallEmitEvent "ping" JNull].

(** While socket 0 of [pending_u1] is still connecting, [connect("u2")]
    opens socket 1, which connects; socket 0 reports an error and a
    screen subscribes. *)
Definition overlapping_calls : list Op :=
  [CallConnect (token_store "tok") (Some "u2");
   SocketConnects 1;
   SocketError 0 (JStr "transport error");
   CallOn "new_message" 7%nat].

(** The library refuses the configured URI: [connect("u1")] finds the
    token, stores the user id, and [io] throws. *)
Definition refused_u1 : Service :=
  after (connect_for false (token_store "tok") (Some "u1")) fresh.

(** Socket 0 of [pending_u1]. *)
Definition opening_socket : Socket :=
  mkSocket false
    [("connect", OnConnect); ("connect_error", OnConnectError);
     ("disconnect", OnDisconnect); ("error", OnError)]
    "tok" (Some "u1") None false.

(** Socket 0 of [connected_as_u1] and of [listening]. *)
Definition established_socket : Socket :=
  mkSocket true handlers_after_connect "tok" (Some "u1") (Some true) false.

Definition alice : User := mkUser "u1" "Alice" "alice@example.org" None.
Definition bob : User := mkUser "u2" "Bob" "bob@example.org" None.

Definition hello_message : Message :=
  mkMessage "m1" "hello" "u1" "u2" "2025-01-01T10:00:00Z" alice bob "TEXT" "SENT" None.

(** * Properties *)

Section Properties.

Context {L : Listeners}.


(** ** Reasoning about computations in [M] *)

Lemma keeps_ret {A} P (a : A) : keeps P (ret a).
Proof. by intros s. Qed.

Lemma keeps_get P : keeps P get.
Proof. by intros s. Qed.

Lemma keeps_throw {A} P e : keeps P (@throw A e).
Proof. by intros s. Qed.

Lemma keeps_bind {A B} P (m : M A) (k : A → M B) :
  keeps P m → (∀ a, keeps P (k a)) → keeps P (bind m k).
Proof.
  intros Hm Hk s Hs. unfold bind. specialize (Hm s Hs).
  destruct (m s) as [[a|e] s']; simpl in *; [by apply Hk | done].
Qed.

Lemma keeps_try_catch {A} P (m : M A) (k : JsVal → M A) :
  keeps P m → (∀ e, keeps P (k e)) → keeps P (try_catch m k).
Proof.
  intros Hm Hk s Hs. unfold try_catch. specialize (Hm s Hs).
  destruct (m s) as [[a|e] s']; simpl in *; [done | by apply Hk].
Qed.

Lemma keeps_when P b m : keeps P m → keeps P (when b m).
Proof. destruct b; [done | intros _; apply keeps_ret]. Qed.

Lemma keeps_for_each {A} P (f : A → M unit) l :
  (∀ x, keeps P (f x)) → keeps P (for_each f l).
Proof.
  intros Hf. induction l as [|x l IH]; simpl.
  - apply keeps_ret.
  - apply keeps_bind; [apply Hf | by intros _].
Qed.

Lemma keeps_modify P f : (∀ s, P s → P (f s)) → keeps P (modify f).
Proof. intros Hf s Hs. by apply Hf. Qed.

Lemma safe_ret {A} (a : A) : safe (ret a).
Proof. intros s. by exists a. Qed.

Lemma safe_get : safe get.
Proof. intros s. by exists s. Qed.

Lemma safe_modify f : safe (modify f).
Proof. intros s. by exists tt. Qed.

Lemma safe_bind {A B} (m : M A) (k : A → M B) :
  safe m → (∀ a, safe (k a)) → safe (bind m k).
Proof.
  intros Hm Hk s. unfold bind. destruct (Hm s) as [a Ha].
  destruct (m s) as [[a'|e] s']; simpl in *; [apply Hk | done].
Qed.

Lemma safe_try_catch {A} (m : M A) (k : JsVal → M A) :
  (∀ e, safe (k e)) → safe (try_catch m k).
Proof.
  intros Hk s. unfold try_catch.
  destruct (m s) as [[a|e] s']; simpl; [by exists a | apply Hk].
Qed.

Lemma safe_when b m : safe m → safe (when b m).
Proof. destruct b; [done | intros _; apply safe_ret]. Qed.

Lemma safe_for_each {A} (f : A → M unit) l :
  (∀ x, safe (f x)) → safe (for_each f l).
Proof.
  intros Hf. induction l as [|x l IH]; simpl.
  - apply safe_ret.
  - apply safe_bind; [apply Hf | by intros _].
Qed.

Lemma safe_unit (m : M unit) s : safe m → (m s).1 = Returns tt.
Proof. intros Hm. destruct (Hm s) as [[] ->]. done. Qed.

Section StablePredicates.
Variable P : Service → Prop.
Hypothesis HP : Stable P.

Lemma keeps_log e : keeps P (log e).
Proof. apply keeps_modify. intros s. apply (stable_trace P HP). Qed.

Lemma keeps_console_error msg : keeps P (console_error msg).
Proof. apply keeps_log. Qed.

Lemma keeps_sleep ms : keeps P (sleep ms).
Proof. apply keeps_log. Qed.

Lemma keeps_alter_socket f h : keeps P (alter_socket f h).
Proof. apply keeps_modify. intros s. apply (stable_sockets P HP). Qed.

Lemma keeps_set_isConnected b : keeps P (modify (set_isConnected b)).
Proof. apply keeps_modify. apply (stable_isConnected P HP). Qed.

Lemma keeps_call_listener l d : keeps P (call_listener l d).
Proof.
  apply keeps_bind; [apply keeps_log | intros _].
  destruct (throws l d); [apply keeps_throw | apply keeps_ret].
Qed.

Lemma keeps_emit ev d : keeps P (emit ev d).
Proof.
  apply keeps_bind; [apply keeps_get | intros s0].
  destruct (eventListeners s0 !! ev) as [ls|]; [|apply keeps_ret].
  apply keeps_for_each. intros l. apply keeps_try_catch.
  - apply keeps_call_listener.
  - intros _. apply keeps_console_error.
Qed.

Lemma keeps_setupEventListeners : keeps P setupEventListeners.
Proof.
  apply keeps_bind; [apply keeps_get | intros s0].
  destruct (socket s0); [|apply keeps_ret].
  apply keeps_for_each. intros ev. apply keeps_alter_socket.
Qed.

Lemma keeps_run_handler h hd d : keeps P (run_handler h hd d).
Proof.
  destruct hd; simpl.
  - apply keeps_bind; [apply keeps_set_isConnected | intros _].
    apply keeps_bind; [apply keeps_modify, (stable_attempts P HP) | intros _].
    apply keeps_bind; [apply keeps_setupEventListeners | intros _].
    apply keeps_alter_socket.
  - apply keeps_bind; [apply keeps_console_error | intros _].
    apply keeps_bind; [apply keeps_set_isConnected | intros _].
    apply keeps_alter_socket.
  - apply keeps_bind; [apply keeps_set_isConnected | intros _]. apply keeps_emit.
  - apply keeps_bind; [apply keeps_console_error | intros _]. apply keeps_emit.
  - apply keeps_emit.
Qed.

Lemma keeps_fire h ev d : keeps P (fire h ev d).
Proof.
  apply keeps_bind; [apply keeps_get | intros s0].
  apply keeps_for_each. intros hd. apply keeps_run_handler.
Qed.

Lemma keeps_socket_disconnect h : keeps P (socket_disconnect h).
Proof.
  apply keeps_bind; [apply keeps_log | intros _].
  apply keeps_bind; [apply keeps_get | intros s0].
  apply keeps_bind; [apply keeps_alter_socket | intros _].
  apply keeps_when, keeps_fire.
Qed.

Lemma keeps_socket_emit ev args : keeps P (socket_emit ev args).
Proof.
  apply keeps_bind; [apply keeps_get | intros s0].
  destruct (socket s0); [|apply keeps_throw].
  destruct (reserved ev); [apply keeps_throw | apply keeps_log].
Qed.

Lemma keeps_guarded g : keeps P (guarded g).
Proof.
  destruct g; simpl;
    unfold returning_bool, returning_nothing, joinRoom, leaveRoom, sendMessage,
      markMessageAsRead, sendTypingStatus, getActiveUsers, sendChatInvitation,
      acceptChatInvitation, rejectChatInvitation;
    repeat first
      [ apply keeps_ret | apply keeps_get | apply keeps_console_error
      | apply keeps_socket_emit
      | apply keeps_bind; [|intros ?]
      | match goal with |- keeps _ (if ?b then _ else _) => destruct b end ].
Qed.

Lemma keeps_emitEvent ev d : keeps P (emitEvent ev d).
Proof.
  unfold emitEvent.
  repeat first
    [ apply keeps_ret | apply keeps_get | apply keeps_console_error
    | apply keeps_socket_emit
    | apply keeps_bind; [|intros ?]
    | match goal with |- keeps _ (if ?b then _ else _) => destruct b end ].
Qed.

Lemma keeps_attempt store maxRetries delay i :
  keeps P (attempt store maxRetries delay i).
Proof.
  apply keeps_try_catch.
  - apply keeps_bind.
    { apply keeps_bind; [apply keeps_log | intros _].
      destruct (store i); [apply keeps_ret | apply keeps_throw]. }
    intros token. destruct (truthy token); [apply keeps_ret|].
    apply keeps_bind; [apply keeps_when, keeps_sleep | intros _; apply keeps_ret].
  - intros e. apply keeps_bind; [apply keeps_console_error | intros _].
    apply keeps_bind; [apply keeps_when, keeps_sleep | intros _; apply keeps_ret].
Qed.

Lemma keeps_retry_loop store maxRetries delay remaining i :
  keeps P (retry_loop store maxRetries delay remaining i).
Proof.
  revert i. induction remaining as [|n IH]; intros i; simpl.
  - apply keeps_ret.
  - apply keeps_bind; [apply keeps_attempt|].
    intros [tok|]; [apply keeps_ret | apply IH].
Qed.

Lemma keeps_isAuthenticated store : keeps P (isAuthenticated store).
Proof.
  apply keeps_try_catch.
  - apply keeps_bind; [|intros token; apply keeps_ret].
    apply keeps_bind; [apply keeps_log | intros _].
    destruct (store 0%nat); [apply keeps_ret | apply keeps_throw].
  - intros e. apply keeps_bind; [apply keeps_console_error | intros _; apply keeps_ret].
Qed.

(** [connect] keeps whatever [open_socket] keeps. *)
Lemma keeps_connect store u :
  (∀ tok, keeps P (open_socket tok u)) → keeps P (connect store u).
Proof.
  intros Hopen. apply keeps_try_catch.
  - apply keeps_bind; [apply keeps_get | intros s0].
    destruct (socket_connected s0); [apply keeps_ret|].
    apply keeps_bind; [apply keeps_retry_loop | intros token].
    destruct (negb (truthy token)); [|apply Hopen].
    apply keeps_bind; [apply keeps_console_error | intros _; apply keeps_ret].
  - intros e. apply keeps_bind; [apply keeps_console_error | intros _; apply keeps_ret].
Qed.

Lemma keeps_reconnect store :
  keeps P disconnect → (∀ tok u, keeps P (open_socket tok u)) →
  keeps P (reconnect store).
Proof.
  intros Hd Ho.
  apply keeps_bind; [apply Hd | intros _].
  apply keeps_bind; [apply keeps_get | intros s0].
  apply keeps_bind; [apply keeps_sleep | intros _].
  apply keeps_bind; [apply keeps_get | intros s1].
  apply keeps_connect. intros tok. apply Ho.
Qed.

(** One step keeps [P] as soon as the three places that write the socket
    handle, the cached user id or the registry do. *)
Lemma step_stable op s :
  (∀ tok u, keeps P (open_socket tok u)) →
  keeps P disconnect →
  (∀ ev l, op = CallOn ev l → keeps P (on ev l)) →
  (∀ ev l, op = CallOff ev l → keeps P (off ev l)) →
  P s → P (step op s).
Proof.
  intros Ho Hd Hon Hoff Hs. destruct op; simpl;
    unfold after, socket_connects, socket_drops, socket_connect_error,
      socket_error, server_event.
  - apply keeps_connect; [intros tok; apply Ho | done].
  - apply keeps_try_catch; [apply Ho | | done].
    intros e. apply keeps_bind; [apply keeps_console_error | intros _; apply keeps_ret].
  - by apply Hd.
  - by apply keeps_reconnect.
  - apply keeps_connect; [intros tok; apply Ho | done].
  - by apply keeps_isAuthenticated.
  - by apply keeps_guarded.
  - by apply keeps_emitEvent.
  - by eapply Hon.
  - by eapply Hoff.
  - apply keeps_bind; [apply keeps_alter_socket | intros _; apply keeps_fire | done].
  - apply keeps_bind; [apply keeps_alter_socket | intros _; apply keeps_fire | done].
  - by apply keeps_fire.
  - by apply keeps_fire.
  - by apply keeps_fire.
Qed.

End StablePredicates.

Section FramedPredicates.
Variable P : Service → Prop.
Hypothesis HP : Framed P.

Lemma keeps_open_socket tok u : keeps P (open_socket tok u).
Proof.
  pose proof (framed_stable P HP) as HS.
  apply keeps_bind; [apply keeps_modify, (framed_userId P HP) | intros _].
  apply keeps_bind; [apply keeps_get | intros s0].
  apply keeps_bind.
  { apply keeps_bind; [apply keeps_get | intros s1].
    apply keeps_bind; [apply keeps_modify; intros s; apply (stable_sockets P HS) | intros _].
    apply keeps_bind; [by apply keeps_log | intros _; apply keeps_ret]. }
  intros h. apply keeps_bind; [apply keeps_modify, (framed_socket P HP) | intros _].
  apply keeps_bind; [apply keeps_get | intros s1].
  destruct (socket s1); [|apply keeps_ret].
  repeat (apply keeps_bind; [by apply keeps_alter_socket | intros _]).
  apply keeps_ret.
Qed.

Lemma keeps_disconnect : keeps P disconnect.
Proof.
  pose proof (framed_stable P HP) as HS.
  apply keeps_bind; [apply keeps_get | intros s0].
  destruct (socket s0); [|apply keeps_ret].
  apply keeps_bind; [by apply keeps_socket_disconnect | intros _].
  apply keeps_bind; [apply keeps_modify, (framed_socket P HP) | intros _].
  apply keeps_bind; [by apply keeps_set_isConnected | intros _].
  apply keeps_modify, (framed_userId P HP).
Qed.

(** Every operation other than [on] and [off] keeps a framed predicate. *)
Lemma step_framed op s :
  (∀ ev l, op = CallOn ev l → keeps P (on ev l)) →
  (∀ ev l, op = CallOff ev l → keeps P (off ev l)) →
  P s → P (step op s).
Proof.
  apply step_stable; [apply (framed_stable P HP) | | apply keeps_disconnect].
  intros tok u. apply keeps_open_socket.
Qed.

End FramedPredicates.

(** ** Never throwing *)

Lemma safe_log e : safe (log e).
Proof. apply safe_modify. Qed.

Lemma safe_emit ev d : safe (emit ev d).
Proof.
  apply safe_bind; [apply safe_get | intros s0].
  destruct (eventListeners s0 !! ev) as [ls|]; [|apply safe_ret].
  apply safe_for_each. intros l. apply safe_try_catch. intros _. apply safe_log.
Qed.

Lemma safe_setupEventListeners : safe setupEventListeners.
Proof.
  apply safe_bind; [apply safe_get | intros s0].
  destruct (socket s0); [|apply safe_ret].
  apply safe_for_each. intros ev. apply safe_modify.
Qed.

Lemma safe_run_handler h hd d : safe (run_handler h hd d).
Proof.
  destruct hd; simpl;
    repeat first [ apply safe_emit | apply safe_setupEventListeners
                 | apply safe_modify | apply safe_log
                 | apply safe_bind; [|intros ?] ].
Qed.

Lemma safe_fire h ev d : safe (fire h ev d).
Proof.
  apply safe_bind; [apply safe_get | intros s0].
  apply safe_for_each. intros hd. apply safe_run_handler.
Qed.

Lemma safe_socket_disconnect h : safe (socket_disconnect h).
Proof.
  apply safe_bind; [apply safe_log | intros _].
  apply safe_bind; [apply safe_get | intros s0].
  apply safe_bind; [apply safe_modify | intros _].
  apply safe_when, safe_fire.
Qed.

Lemma safe_disconnect : safe disconnect.
Proof.
  apply safe_bind; [apply safe_get | intros s0].
  destruct (socket s0); [|apply safe_ret].
  apply safe_bind; [apply safe_socket_disconnect | intros _].
  repeat (apply safe_bind; [apply safe_modify | intros _]).
  apply safe_modify.
Qed.

Lemma safe_connect store u : safe (connect store u).
Proof.
  apply safe_try_catch. intros e.
  apply safe_bind; [apply safe_log | intros _; apply safe_ret].
Qed.

(** ** The trace only grows *)

Lemma set_trace_same s : set_trace (trace s) s = s.
Proof. by destruct s. Qed.

Lemma since_set_trace s tr : since s (set_trace (trace s ++ tr) s) = tr.
Proof. unfold since. simpl. apply drop_app_length. Qed.

Lemma since_self s : since s s = [].
Proof. unfold since. apply drop_all. Qed.

(** ** Event registry *)

Lemma dispatch_spec event data ls s :
  for_each (λ listener,
              try_catch (call_listener listener data)
                (λ error, console_error ("Error in event listener for " ++ event ++ ":")))
           ls s
  = (Returns tt, set_trace (trace s ++ dispatch_trace event data ls) s).
Proof.
  revert s. induction ls as [|l ls IH]; intros s.
  - simpl. unfold ret. by rewrite app_nil_r, set_trace_same.
  - simpl. unfold bind at 1, try_catch, call_listener, bind, log, modify,
      console_error, log, modify, throw, ret.
    destruct (throws l data); simpl; rewrite IH; simpl;
      by rewrite <- !app_assoc.
Qed.

(** What [emit] does, in one equation. *)
Lemma emit_spec event data s :
  emit event data s
  = (Returns tt, set_trace (trace s ++ dispatch_trace event data (registered event s)) s).
Proof.
  unfold emit, registered, bind, get.
  destruct (eventListeners s !! event) as [ls|]; simpl.
  - apply dispatch_spec.
  - unfold ret. by rewrite app_nil_r, set_trace_same.
Qed.

Lemma listener_calls_dispatch event data ls :
  listener_calls (dispatch_trace event data ls) = (λ l, (l, data)) <$> ls.
Proof.
  unfold listener_calls, dispatch_trace.
  induction ls as [|l ls IH]; [done|].
  rewrite bind_cons, omap_app, IH, fmap_cons.
  by destruct (throws l data).
Qed.

Lemma console_errors_dispatch event data ls :
  console_errors (dispatch_trace event data ls)
  = (λ _, "Error in event listener for " ++ event ++ ":")
      <$> filter (λ l, throws l data = true) ls.
Proof.
  unfold console_errors, dispatch_trace.
  induction ls as [|l ls IH]; [done|].
  rewrite bind_cons, omap_app, IH, filter_cons.
  destruct (throws l data) eqn:Hl.
  - by rewrite decide_True by done.
  - by rewrite decide_False by done.
Qed.

Lemma registered_on e l e' s :
  registered e' (after (on e l) s)
  = if decide (e' = e) then set_add l (registered e s) else registered e' s.
Proof.
  unfold after, on, registered, bind, get, when, modify, ret.
  destruct (eventListeners s !! e) as [ls|] eqn:He; simpl;
    rewrite ?He, ?lookup_insert_eq; simpl;
    (destruct (decide (e' = e)) as [->|Hne];
       [by rewrite lookup_insert_eq | by rewrite !lookup_insert_ne]).
Qed.

Lemma registered_off e l e' s :
  registered e' (after (off e l) s)
  = if decide (e' = e) then set_delete l (registered e s) else registered e' s.
Proof.
  unfold after, off, registered, bind, get, when, modify, ret.
  destruct (eventListeners s !! e) as [ls|] eqn:He; simpl.
  - destruct (length (set_delete l ls) =? 0)%nat eqn:Hlen; simpl.
    + apply Nat.eqb_eq, nil_length_inv in Hlen. rewrite Hlen.
      destruct (decide (e' = e)) as [->|Hne].
      * by rewrite lookup_delete_eq.
      * by rewrite lookup_delete_ne, lookup_insert_ne.
    + destruct (decide (e' = e)) as [->|Hne].
      * by rewrite lookup_insert_eq.
      * by rewrite lookup_insert_ne.
  - destruct (decide (e' = e)) as [->|Hne]; [by rewrite He | done].
Qed.

(** [off] removes the key whose set became empty. *)
Lemma off_drops_empty_key e l s :
  set_delete l (registered e s) = [] →
  eventListeners (after (off e l) s) !! e = None.
Proof.
  unfold after, off, registered, bind, get, when, modify, ret.
  destruct (eventListeners s !! e) as [ls|] eqn:He; simpl; [|done].
  intros ->. simpl. by rewrite lookup_delete_eq.
Qed.

Lemma elem_of_set_add l x ls : x ∈ set_add l ls ↔ x = l ∨ x ∈ ls.
Proof.
  unfold set_add. destruct (decide (l ∈ ls)).
  - split; [by right | by intros [->|?]].
  - rewrite elem_of_app, list_elem_of_singleton. tauto.
Qed.

Lemma elem_of_set_delete l x ls : x ∈ set_delete l ls ↔ x ≠ l ∧ x ∈ ls.
Proof. unfold set_delete. by rewrite list_elem_of_filter. Qed.

Lemma unregistered_framed e l : Framed (λ s, l ∉ registered e s).
Proof. split; [split|..]; by intros. Qed.

Lemma on_keeps_unregistered e l e' l' :
  CallOn e' l' ≠ CallOn e l → keeps (λ s, l ∉ registered e s) (on e' l').
Proof.
  intros Hne s Hs. change ((on e' l' s).2) with (after (on e' l') s).
  rewrite registered_on. destruct (decide (e = e')) as [<-|]; [|done].
  rewrite elem_of_set_add. intros [->|?]; [by apply Hne | done].
Qed.

Lemma off_keeps_unregistered e l e' l' :
  keeps (λ s, l ∉ registered e s) (off e' l').
Proof.
  intros s Hs. change ((off e' l' s).2) with (after (off e' l') s).
  rewrite registered_off. destruct (decide (e = e')) as [<-|]; [|done].
  rewrite elem_of_set_delete. tauto.
Qed.

Lemma run_keeps_unregistered e l ops s :
  Forall (λ op, op ≠ CallOn e l) ops →
  l ∉ registered e s → l ∉ registered e (run ops s).
Proof.
  intros Hops. revert s. induction Hops as [|op ops Hop _ IH]; intros s Hs; [done|].
  simpl. apply IH.
  apply (step_framed (λ s, l ∉ registered e s)); [apply unregistered_framed | | | done].
  - intros ev l' ->. by apply on_keeps_unregistered.
  - intros ev l' _. apply off_keeps_unregistered.
Qed.

(** C4.  After [off(e, l)], and for as long as [l] is not registered for
    [e] again, no [emit(e, ...)] calls [l]: whatever operations [ops]
    come in between, the dispatch does not throw and calls exactly the
    listeners registered for [e] at that point, each with the emitted
    data, and [l] is not among them.  [off] itself leaves every other
    listener of [e] registered, so an [emit] right after it still calls
    each of them with the data. *)
Theorem off_silences_listener e l s ops data :
  Forall (λ op, op ≠ CallOn e l) ops →
  let s1 := after (off e l) s in
  let s2 := run ops s1 in
  (∀ d, (l, d) ∉ listener_calls (since s2 (after (emit e data) s2))) ∧
  (∀ l', l' ∈ registered e s2 →
         (l', data) ∈ listener_calls (since s2 (after (emit e data) s2))) ∧
  (∀ l', l' ≠ l → l' ∈ registered e s →
         (l', data) ∈ listener_calls (since s1 (after (emit e data) s1))) ∧
  (emit e data s2).1 = Returns tt.
Proof.
  intros Hops s1 s2.
  assert (Hcalls : ∀ s', listener_calls (since s' (after (emit e data) s'))
                         = (λ x, (x, data)) <$> registered e s').
  { intros s'. unfold after. rewrite emit_spec. simpl.
    by rewrite since_set_trace, listener_calls_dispatch. }
  assert (H1 : registered e s1 = set_delete l (registered e s)).
  { unfold s1. rewrite registered_off. by rewrite decide_True. }
  assert (H2 : l ∉ registered e s2).
  { apply run_keeps_unregistered; [done|].
    rewrite H1, elem_of_set_delete. tauto. }
  rewrite !Hcalls. repeat split.
  - intros d [x [[= -> _] Hx]]%list_elem_of_fmap. done.
  - intros l' Hl'. apply list_elem_of_fmap. by exists l'.
  - intros l' Hne Hl'. apply list_elem_of_fmap. exists l'. split; [done|].
    rewrite H1, elem_of_set_delete. done.
  - by rewrite emit_spec.
Qed.

(** C5.  [emit] never throws, whatever the listeners do: it calls every
    listener registered for the event, in registration order, each with
    the emitted data, and writes one console.error line for each listener
    that threw.  A listener that throws therefore neither stops the
    listeners after it nor reaches the caller of [emit]. *)
Theorem emit_isolates_throwing_listener event data s :
  (emit event data s).1 = Returns tt ∧
  listener_calls (since s (after (emit event data) s))
    = (λ l, (l, data)) <$> registered event s ∧
  console_errors (since s (after (emit event data) s))
    = (λ _, "Error in event listener for " ++ event ++ ":")
        <$> filter (λ l, throws l data = true) (registered event s).
Proof.
  unfold after. rewrite emit_spec. simpl. rewrite since_set_trace.
  by rewrite listener_calls_dispatch, console_errors_dispatch.
Qed.

(** ** Invariants of the reachable states *)

Lemma run_invariant (P : Service → Prop) :
  (∀ op s, P s → P (step op s)) → ∀ ops s, P s → P (run ops s).
Proof.
  intros Hstep ops. induction ops as [|op ops IH]; intros s Hs; [done|].
  simpl. by apply IH, Hstep.
Qed.

Lemma keeps_on (P : Service → Prop) ev l :
  (∀ v s, P s → P (set_eventListeners v s)) → keeps P (on ev l).
Proof.
  intros HP. apply keeps_bind; [apply keeps_get | intros s0].
  apply keeps_bind; [|intros _; apply keeps_modify; intros s; apply HP].
  apply keeps_when. apply keeps_modify. intros s; apply HP.
Qed.

Lemma keeps_off (P : Service → Prop) ev l :
  (∀ v s, P s → P (set_eventListeners v s)) → keeps P (off ev l).
Proof.
  intros HP. apply keeps_bind; [apply keeps_get | intros s0].
  destruct (eventListeners s0 !! ev) as [ls|]; [|apply keeps_ret].
  apply keeps_bind; [apply keeps_modify; intros s; apply HP | intros _].
  apply keeps_when. apply keeps_modify. intros s; apply HP.
Qed.

Lemma attempts_zero_framed : Framed (λ s, reconnectAttempts s = 0).
Proof. split; [split|..]; by intros. Qed.

(** C9.  The reconnect-attempt counter starts at 0 and stays 0 through
    every sequence of method calls, resumed continuations and socket
    events, so [getConnectionStatus()] always reports
    [reconnectAttempts = 0]. *)
Theorem reconnectAttempts_always_zero attempts delay ops :
  reconnectAttempts (run ops (init attempts delay)) = 0 ∧
  status_reconnectAttempts (getConnectionStatus (run ops (init attempts delay))) = 0.
Proof.
  assert (H : reconnectAttempts (run ops (init attempts delay)) = 0); [|done].
  apply (run_invariant (λ s, reconnectAttempts s = 0)); [|done].
  intros op s Hs.
  apply (step_framed (λ s, reconnectAttempts s = 0)); [apply attempts_zero_framed | | | done].
  - intros ev l _. by apply (keeps_on (λ s, reconnectAttempts s = 0)).
  - intros ev l _. by apply (keeps_off (λ s, reconnectAttempts s = 0)).
Qed.

Lemma alter_last {A} (f : A → A) (l : list A) (x : A) :
  alter f (length l) (l ++ [x])%list = (l ++ [f x])%list.
Proof. rewrite alter_app_r_alt by done. by rewrite Nat.sub_diag. Qed.

Lemma lookup_last {A} (l : list A) (x : A) : (l ++ [x])%list !! length l = Some x.
Proof. apply list_lookup_middle. done. Qed.

Lemma open_socket_eq tok u s :
  open_socket tok u s = (Returns (Pending (length (sockets s))), opened tok u s).
Proof.
  unfold open_socket, opened, bind, modify, get, io, log, modify, socket_on,
    alter_socket, modify, ret, bind. simpl.
  by rewrite !alter_last.
Qed.

Lemma disconnect_spec s :
  match socket s with
  | Some h =>
      ∃ s0, socket_disconnect h s = (Returns tt, s0) ∧
            disconnect s
            = (Returns tt,
               set_currentUserId None (set_isConnected false (set_socket None s0)))
  | None => disconnect s = (Returns tt, s)
  end.
Proof.
  unfold disconnect, bind, get. destruct (socket s) as [h|]; [|done].
  pose proof (safe_unit (socket_disconnect h) s (safe_socket_disconnect h)) as Hd.
  destruct (socket_disconnect h s) as [o s0]. simpl in Hd. subst o.
  by exists s0.
Qed.

(** C7, as amended.  In every state [disconnect()] returns without
    throwing and leaves the socket handle null.  When a socket was
    present it also leaves the cached user id null; when none was present
    it changes nothing, so a user id that is cached without a socket
    stays cached.  Calling it again returns without throwing and changes
    nothing: two calls leave the same state as one. *)
Theorem disconnect_closes_and_is_idempotent s :
  (disconnect s).1 = Returns tt ∧
  socket (after disconnect s) = None ∧
  (is_Some (socket s) → currentUserId (after disconnect s) = None) ∧
  (socket s = None → after disconnect s = s) ∧
  disconnect (after disconnect s) = (Returns tt, after disconnect s).
Proof.
  pose proof (disconnect_spec s) as Hd.
  assert (socket (after disconnect s) = None) as Hnone.
  { unfold after. destruct (socket s) as [h|] eqn:Hsock.
    - by destruct Hd as (s0 & _ & ->).
    - by rewrite Hd. }
  split; [apply safe_unit, safe_disconnect|]. split; [done|].
  split; [|split].
  - intros [h Hsock]. rewrite Hsock in Hd. destruct Hd as (s0 & _ & Hd).
    unfold after. by rewrite Hd.
  - intros Hsock. rewrite Hsock in Hd. unfold after. by rewrite Hd.
  - pose proof (disconnect_spec (after disconnect s)) as Hd2.
    by rewrite Hnone in Hd2.
Qed.

(** ** Token retrieval that finds no token *)

Lemma set_trace_set_trace v w s : set_trace v (set_trace w s) = set_trace v s.
Proof. done. Qed.

Lemma attempt_no_token store maxRetries delay i s :
  yields_token (store i) = false →
  ∃ tr, attempt store maxRetries delay i s
        = (Returns None, set_trace (trace s ++ tr) s) ∧
        waits tr = GetItemAsync "auth_token" ::
                   (if (Z.of_nat i <? maxRetries - 1)%Z then [SetTimeout delay] else []).
Proof.
  intros Hi.
  unfold attempt, try_catch, bind, getItemAsync, bind, log, modify, console_error,
    when, sleep, log, modify, ret, throw.
  destruct (store i) as [v|e]; simpl in *; rewrite ?Hi;
    destruct (Z.of_nat i <? maxRetries - 1)%Z; simpl;
    rewrite <- ?app_assoc; eexists; (split; [reflexivity | done]).
Qed.

Lemma retry_loop_no_token store maxRetries delay remaining i s :
  (∀ j, (i ≤ j < i + remaining)%nat → yields_token (store j) = false) →
  ∃ tr, retry_loop store maxRetries delay remaining i s
        = (Returns None, set_trace (trace s ++ tr) s) ∧
        waits tr = retry_waits maxRetries delay remaining i.
Proof.
  revert i s. induction remaining as [|n IH]; intros i s Hstore.
  - exists []. simpl. unfold ret. by rewrite app_nil_r, set_trace_same.
  - destruct (attempt_no_token store maxRetries delay i s) as (tr1 & H1 & Hw1);
      [apply Hstore; lia|].
    destruct (IH (S i) (set_trace (trace s ++ tr1) s)) as (tr2 & H2 & Hw2);
      [intros j Hj; apply Hstore; lia|].
    exists (tr1 ++ tr2)%list. split.
    + simpl. unfold bind. rewrite H1, H2. simpl. by rewrite <- app_assoc.
    + unfold waits in *. rewrite omap_app, Hw1, Hw2. done.
Qed.

Lemma connect_no_token store u s :
  socket_connected s = false →
  (∀ j, (j < 3)%nat → yields_token (store j) = false) →
  ∃ tr, connect store u s = (Returns (Resolved false), set_trace (trace s ++ tr) s) ∧
        waits tr = [GetItemAsync "auth_token"; SetTimeout 1000;
                    GetItemAsync "auth_token"; SetTimeout 1000;
                    GetItemAsync "auth_token"].
Proof.
  intros Hs Hstore.
  destruct (retry_loop_no_token store 3 1000 3 0 s) as (tr & Htr & Hw);
    [intros j Hj; apply Hstore; lia|].
  exists (tr ++ [ConsoleError "No auth token found for WebSocket connection after retries"])%list.
  split.
  - unfold connect, try_catch, bind, get. rewrite Hs.
    unfold getAuthTokenWithRetry. change (Z.to_nat 3) with 3%nat. rewrite Htr.
    simpl. unfold console_error, log, modify, ret. simpl. by rewrite <- app_assoc.
  - unfold waits in *. rewrite omap_app, Hw. done.
Qed.

(** C3.  When [connect] goes to the token store (the service is not
    already connected) and no read of the store yields a usable token -
    it resolves to null or an empty string, or it rejects - [connect]
    reads the store three times, waiting a fixed 1000 ms after the first
    and after the second read, and then resolves [false]; it does not
    throw. *)
Theorem connect_without_token store u s :
  socket_connected s = false →
  (∀ i, yields_token (store i) = false) →
  (connect store u s).1 = Returns (Resolved false) ∧
  waits (since s (after (connect store u) s))
  = [GetItemAsync "auth_token"; SetTimeout 1000;
     GetItemAsync "auth_token"; SetTimeout 1000;
     GetItemAsync "auth_token"].
Proof.
  intros Hs Hstore.
  destruct (connect_no_token store u s Hs) as (tr & Heq & Hw); [by intros|].
  unfold after. rewrite Heq. simpl. by rewrite since_set_trace.
Qed.

(** C10.  On a service that is not already connected, when none of the
    three token reads yields a usable token, [connect(userId)] resolves
    [false] and leaves the socket handle, the cached user id and the
    listener registry as they were (and the socket store and the
    connected flag as well): the [userId] argument is not stored. *)
Theorem connect_token_failure_changes_nothing store u s :
  socket_connected s = false →
  (∀ i, (i < 3)%nat → yields_token (store i) = false) →
  (connect store u s).1 = Returns (Resolved false) ∧
  socket (after (connect store u) s) = socket s ∧
  currentUserId (after (connect store u) s) = currentUserId s ∧
  eventListeners (after (connect store u) s) = eventListeners s ∧
  sockets (after (connect store u) s) = sockets s ∧
  isConnected (after (connect store u) s) = isConnected s.
Proof.
  intros Hs Hstore.
  destruct (connect_no_token store u s Hs Hstore) as (tr & Heq & _).
  unfold after. by rewrite Heq.
Qed.

(** ** Guarded operations *)

(** C2, as amended.  When [this.socket?.connected] is not true (no
    socket, or a socket that does not report connected), each of the nine
    guarded operations returns [false] or nothing, does not throw, writes
    one console.error line and emits nothing on any socket. *)
Theorem guarded_fails_without_live_socket g s :
  socket_connected s = false →
  ((guarded g s).1 = Returns (Some false) ∨ (guarded g s).1 = Returns None) ∧
  socket_emits (since s (after (guarded g) s)) = [] ∧
  ∃ msg, since s (after (guarded g) s) = [ConsoleError msg].
Proof.
  intros Hs.
  destruct g; simpl;
    unfold after, returning_bool, returning_nothing, joinRoom, leaveRoom,
      sendMessage, markMessageAsRead, sendTypingStatus, getActiveUsers,
      sendChatInvitation, acceptChatInvitation, rejectChatInvitation,
      bind, get; rewrite Hs; simpl;
    unfold since; simpl; rewrite drop_app_length; simpl; eauto.
Qed.

(** ** A connect that opens a socket *)

(** [connect] hands back a pending promise only by way of [open_socket]. *)
Lemma connect_pending store u s h s1 :
  connect store u s = (Returns (Pending h), s1) →
  ∃ tok s0, socket_connected s = false ∧
            h = length (sockets s0) ∧ s1 = opened tok u s0.
Proof.
  unfold connect, try_catch, bind, get.
  destruct (socket_connected s); [done|].
  destruct (getAuthTokenWithRetry store 3 1000 s) as [[token|e] s0]; [|done].
  destruct (negb (truthy token)); [done|].
  rewrite open_socket_eq. intros [= <- <-]. by exists (default "" token), s0.
Qed.

Lemma handlers_for_connect :
  (filter (λ p : string * Handler, p.1 = "connect")
     [("connect", OnConnect); ("connect_error", OnConnectError);
      ("disconnect", OnDisconnect); ("error", OnError)]).*2 = [OnConnect].
Proof. by vm_compute. Qed.

Lemma setup_forwarders h evs s :
  for_each (λ ev, socket_on h ev (Forward ev)) evs s
  = (Returns tt,
     set_sockets (alter (add_handlers ((λ ev, (ev, Forward ev)) <$> evs)) h (sockets s)) s).
Proof.
  revert s. induction evs as [|ev evs IH]; intros s.
  - simpl. unfold ret. f_equal. rewrite list_alter_id; [by destruct s|].
    intros []. unfold add_handlers. simpl. by rewrite app_nil_r.
  - simpl. unfold bind, socket_on, alter_socket, modify at 1. rewrite IH. simpl.
    f_equal. unfold set_sockets. simpl. f_equal.
    rewrite list_alter_alter_eq. apply list_alter_ext; [|done].
    intros so _. unfold add_handlers. simpl. by rewrite <- app_assoc.
Qed.

Lemma run_OnConnect h h' d s :
  socket s = Some h' →
  run_handler h OnConnect d s
  = (Returns tt,
     set_sockets
       (alter (settle true) h
          (alter (add_handlers ((λ ev, (ev, Forward ev)) <$> forwarded_events)) h'
             (sockets s)))
       (set_reconnectAttempts 0 (set_isConnected true s))).
Proof.
  intros Hs. unfold run_handler, setupEventListeners, resolve, alter_socket, bind,
    modify, get.
  cbn [socket set_reconnectAttempts set_isConnected]. rewrite Hs, setup_forwarders.
  done.
Qed.

(** ** Between [connect] and the socket's [connect] event *)

Lemma keeps_for_each_in {A} P (f : A → M unit) l :
  (∀ x, x ∈ l → keeps P (f x)) → keeps P (for_each f l).
Proof.
  induction l as [|x l IH]; intros Hf; simpl.
  - apply keeps_ret.
  - apply keeps_bind; [apply Hf, list_elem_of_here|].
    intros _. apply IH. intros y Hy. by apply Hf, list_elem_of_further.
Qed.

Section UndisturbedPredicates.
Variable P : Service → Prop.
Hypothesis HP : Undisturbed P.

Lemma undisturbed_log e : keeps P (log e).
Proof. apply keeps_modify. intros s. apply (undisturbed_trace P HP). Qed.

Lemma undisturbed_alter f h : HandlerUpdate f → keeps P (alter_socket f h).
Proof. intros Hf. apply keeps_modify. intros s. by apply (undisturbed_update P HP). Qed.

Lemma undisturbed_setup : keeps P setupEventListeners.
Proof.
  unfold setupEventListeners. apply keeps_bind; [apply keeps_get | intros s0].
  destruct (socket s0) as [h|]; [|apply keeps_ret].
  apply keeps_for_each_in. intros ev Hev. by apply undisturbed_alter; constructor.
Qed.

Ltac undisturbed_step :=
  lazymatch goal with
  | |- keeps _ (ret _) => apply keeps_ret
  | |- keeps _ get => apply keeps_get
  | |- keeps _ (throw _) => apply keeps_throw
  | |- keeps _ (log _) => apply undisturbed_log
  | |- keeps _ (modify (set_isConnected _)) =>
      apply keeps_modify, (undisturbed_isConnected P HP)
  | |- keeps _ (modify (set_reconnectAttempts _)) =>
      apply keeps_modify, (undisturbed_attempts P HP)
  | |- keeps _ setupEventListeners => apply undisturbed_setup
  | |- keeps _ (alter_socket _ _) => apply undisturbed_alter; constructor
  | |- keeps _ (bind _ _) => apply keeps_bind; [|intros ?]
  | |- keeps _ (try_catch _ _) => apply keeps_try_catch; [|intros ?]
  | |- keeps _ (when _ _) => apply keeps_when
  | |- keeps _ (for_each _ _) => apply keeps_for_each; intros ?
  | |- keeps _ (console_error _) => unfold console_error
  | |- keeps _ (resolve _ _) => unfold resolve
  | |- keeps _ (call_listener _ _) => unfold call_listener
  | |- keeps _ (socket_emit _ _) => unfold socket_emit
  | |- keeps _ (getItemAsync _ _ _) => unfold getItemAsync
  | |- keeps _ (emit _ _) => unfold emit
  | |- keeps _ (if ?b then _ else _) => destruct b
  | |- keeps _ (match ?x with _ => _ end) => destruct x
  end.

Lemma undisturbed_fire h ev d : keeps P (fire h ev d).
Proof.
  unfold fire. apply keeps_bind; [apply keeps_get | intros s0].
  apply keeps_for_each. intros hd.
  destruct hd; unfold run_handler; repeat undisturbed_step.
Qed.

Lemma undisturbed_guarded g : keeps P (guarded g).
Proof.
  destruct g; simpl;
    unfold returning_bool, returning_nothing, joinRoom, leaveRoom, sendMessage,
      markMessageAsRead, sendTypingStatus, getActiveUsers, sendChatInvitation,
      acceptChatInvitation, rejectChatInvitation;
    repeat undisturbed_step.
Qed.

Lemma undisturbed_isAuthenticated store : keeps P (isAuthenticated store).
Proof. unfold isAuthenticated. repeat undisturbed_step. Qed.

Lemma undisturbed_emitEvent ev d : keeps P (emitEvent ev d).
Proof. unfold emitEvent. repeat undisturbed_step. Qed.

Lemma undisturbed_socket_connects h : keeps P (socket_connects h).
Proof.
  unfold socket_connects.
  apply keeps_bind; [apply undisturbed_alter; constructor | intros _; apply undisturbed_fire].
Qed.

Lemma undisturbed_socket_drops h r : keeps P (socket_drops h r).
Proof.
  unfold socket_drops.
  apply keeps_bind; [apply undisturbed_alter; constructor | intros _; apply undisturbed_fire].
Qed.

(** Every operation that neither opens nor closes a socket keeps [P]. *)
Lemma step_undisturbed op s : leaves_handle op = true → P s → P (step op s).
Proof.
  intros Hop Hs. destruct op; try discriminate Hop; cbn [step]; unfold after.
  - by apply undisturbed_isAuthenticated.
  - by apply undisturbed_guarded.
  - by apply undisturbed_emitEvent.
  - apply (keeps_on P); [apply (undisturbed_registry P HP) | done].
  - apply (keeps_off P); [apply (undisturbed_registry P HP) | done].
  - by apply undisturbed_socket_connects.
  - by apply undisturbed_socket_drops.
  - by apply undisturbed_fire.
  - by apply undisturbed_fire.
  - by apply undisturbed_fire.
Qed.

Lemma run_undisturbed ops s :
  Forall (λ op, leaves_handle op = true) ops → P s → P (run ops s).
Proof.
  intros Hops. revert s. induction Hops as [|op ops Hop _ IH]; intros s Hs; [done|].
  apply IH. by apply step_undisturbed.
Qed.

End UndisturbedPredicates.

Lemma current_with_undisturbed h uid : Undisturbed (current_with h uid).
Proof.
  split; try by intros.
  intros f h' s Hf (Hsock & Huid & Hh). split; [done|]. split; [done|].
  unfold handlers_for in *. cbn [sockets set_sockets].
  destruct (decide (h' = h)) as [->|Hne]; [|by rewrite list_lookup_alter_ne].
  rewrite list_lookup_alter_eq. destruct (sockets s !! h) as [so|]; [|done].
  cbn [fmap option_fmap option_map]. rewrite <- Hh.
  destruct Hf as [ev Hev|b|b]; cbn [sock_handlers add_handlers with_connected]; [|done|].
  - rewrite filter_app, fmap_app.
    assert (ev ≠ "connect") as Hne.
    { intros ->. revert Hev. unfold forwarded_events. compute_done. }
    rewrite (filter_cons_False _ (ev, Forward ev)) by done.
    by rewrite filter_nil, app_nil_r.
  - unfold settle. by destruct (sock_settled so).
Qed.

(** What the [connect] event of the current socket leaves behind. *)
Lemma connect_event_on_current h uid s :
  current_with h uid s →
  getConnectionStatus (after (socket_connects h) s) = mkStatus true 0 uid ∧
  awaited (Pending h) (after (socket_connects h) s)
  = Some (default true (awaited (Pending h) s)).
Proof.
  intros (Hsock & Huid & Hh).
  unfold after, socket_connects, alter_socket, fire, bind, modify, get.
  cbn [fst snd].
  assert (handlers_for "connect" h
            (set_sockets (alter (with_connected true) h (sockets s)) s) = [OnConnect])
    as ->.
  { apply (undisturbed_update _ (current_with_undisturbed h uid) (with_connected true) h s);
      [constructor | done]. }
  cbn [for_each]. unfold bind. rewrite (run_OnConnect _ h) by done.
  cbn [ret fst snd].
  unfold handlers_for in Hh.
  destruct (sockets s !! h) as [so|] eqn:Hso; [|done].
  unfold getConnectionStatus, connected, socket_connected, awaited.
  cbn [sockets socket isConnected reconnectAttempts currentUserId
       set_sockets set_reconnectAttempts set_isConnected].
  rewrite Hsock, !list_lookup_alter_eq, Hso, Huid.
  cbn [fmap option_fmap option_map mbind option_bind].
  split.
  - unfold settle, add_handlers, with_connected. cbn [sock_settled sock_connected].
    by destruct (sock_settled so).
  - unfold settle, add_handlers, with_connected. cbn [sock_settled].
    by destruct (sock_settled so).
Qed.

(** C8, as amended.  On a service that is already connected,
    [connect(userId)] resolves [true] at once and changes nothing: the
    cached user id stays what it was.  Otherwise, when [connect(userId)]
    has opened a socket, so that the promise it handed back waits for that
    socket, and the socket's [connect] event arrives - after any method
    calls and socket events other than [connect], [disconnect] and
    [reconnect] - then [getConnectionStatus()] reports [connected: true],
    [reconnectAttempts: 0] and the [userId] that was passed ([null] when
    it was left out or empty), and the promise has resolved [true] unless
    a [connect_error] had resolved it [false] before. *)
Theorem connect_then_status store u s :
  (socket_connected s = true → connect store u s = (Returns (Resolved true), s)) ∧
  (∀ h s1 ops,
     connect store u s = (Returns (Pending h), s1) →
     Forall (λ op, leaves_handle op = true) ops →
     getConnectionStatus (after (socket_connects h) (run ops s1))
     = mkStatus true 0 (or_null u) ∧
     (awaited (Pending h) (run ops s1) ≠ Some false →
      awaited (Pending h) (after (socket_connects h) (run ops s1)) = Some true)).
Proof.
  split.
  - intros Hs. unfold connect, try_catch, bind, get. by rewrite Hs.
  - intros h s1 ops (tok & s0 & _ & -> & ->)%connect_pending Hops.
    assert (current_with (length (sockets s0)) (or_null u) (run ops (opened tok u s0)))
      as Hcur.
    { apply run_undisturbed; [apply current_with_undisturbed | done |].
      split; [done|]. split; [done|].
      unfold handlers_for. cbn [opened sockets set_sockets]. rewrite lookup_last.
      apply handlers_for_connect. }
    destruct (connect_event_on_current _ _ _ Hcur) as [Hstatus Hawait].
    split; [done|]. intros Hnot. rewrite Hawait.
    by destruct (awaited (Pending (length (sockets s0))) (run ops (opened tok u s0)))
      as [[]|].
Qed.

(** ** Reconnecting *)

(** With a socket in hand, [reconnect] calls [connect] with no user id:
    [disconnect] has cleared the cached id by the time it is read. *)
Lemma reconnect_passes_no_user_id store s h :
  socket s = Some h →
  reconnect store s
  = (disconnect ;;; s' <- get ;; sleep (reconnectDelay s') ;;; connect store None) s.
Proof.
  intros Hsock. unfold reconnect, bind.
  pose proof (disconnect_spec s) as Hd. rewrite Hsock in Hd.
  destruct Hd as (s0 & _ & ->). reflexivity.
Qed.

(** Without a socket [disconnect] does nothing at all. *)
Lemma disconnect_without_socket s :
  socket s = None → disconnect s = (Returns tt, s).
Proof. intros Hs. pose proof (disconnect_spec s) as Hd. by rewrite Hs in Hd. Qed.

(** ** More on the event registry *)

Lemma eventListeners_on e l s :
  eventListeners (after (on e l) s)
  = <[e := set_add l (registered e s)]> (eventListeners s).
Proof.
  unfold after, on, registered, bind, get, when, modify, ret.
  destruct (eventListeners s !! e) as [ls|] eqn:He; simpl.
  - by rewrite He.
  - rewrite lookup_insert_eq. simpl. by rewrite insert_insert_eq.
Qed.

Lemma eventListeners_off e l s :
  eventListeners (after (off e l) s)
  = match eventListeners s !! e with
    | Some ls => match set_delete l ls with
                 | [] => delete e (eventListeners s)
                 | ls' => <[e := ls']> (eventListeners s)
                 end
    | None => eventListeners s
    end.
Proof.
  unfold after, off, bind, get, when, modify, ret.
  destruct (eventListeners s !! e) as [ls|] eqn:He; simpl; [|done].
  destruct (set_delete l ls) as [|x ls'] eqn:Hd; simpl; [|done].
  by rewrite delete_insert_eq.
Qed.

Lemma on_elsewhere_unchanged e l s :
  after (on e l) s = set_eventListeners (eventListeners (after (on e l) s)) s.
Proof.
  unfold after, on, bind, get, when, modify, ret.
  by destruct (negb _); destruct s.
Qed.

Lemma set_add_idem l ls : set_add l (set_add l ls) = set_add l ls.
Proof.
  unfold set_add at 2. destruct (decide (l ∈ ls)) as [Hin|Hnin].
  - unfold set_add. by rewrite decide_True.
  - unfold set_add. rewrite (decide_False (P := l ∈ ls)) by done.
    rewrite decide_True; [done|].
    apply elem_of_app. right. by apply list_elem_of_singleton.
Qed.

Lemma NoDup_set_add l ls : NoDup ls → NoDup (set_add l ls).
Proof.
  intros Hnd. unfold set_add. destruct (decide (l ∈ ls)); [done|].
  apply NoDup_app. split; [done|]. split; [|apply NoDup_singleton].
  intros x Hx ->%list_elem_of_singleton. done.
Qed.

Lemma NoDup_set_delete l ls : NoDup ls → NoDup (set_delete l ls).
Proof. apply NoDup_filter. Qed.

Lemma set_add_nonempty l ls : set_add l ls ≠ [].
Proof.
  unfold set_add. destruct (decide (l ∈ ls)) as [Hin|_].
  - intros ->. by apply not_elem_of_nil in Hin.
  - by destruct ls.
Qed.

Lemma set_delete_fresh l ls : l ∉ ls → set_delete l (ls ++ [l]) = ls.
Proof.
  intros Hl. unfold set_delete. rewrite filter_app.
  rewrite (filter_cons_False _ l) by (intros H; by apply H).
  rewrite filter_nil, app_nil_r.
  induction ls as [|x ls IH]; [done|].
  apply not_elem_of_cons in Hl as [Hne Hl].
  rewrite filter_cons_True by congruence. by rewrite IH.
Qed.

(** X1.  Registering the same listener for the same event a second time
    changes nothing: the state after two [on(e, l)] calls is the state
    after one. *)
Theorem on_twice_is_on_once e l s :
  on e l (after (on e l) s) = (Returns tt, after (on e l) s).
Proof.
  assert (Hret : ∀ s', on e l s' = (Returns tt, after (on e l) s')).
  { intros s'. unfold after, on, bind, get, when, modify, ret.
    by destruct (negb _). }
  rewrite Hret. f_equal.
  rewrite (on_elsewhere_unchanged e l (after (on e l) s)).
  rewrite (eventListeners_on e l (after (on e l) s)).
  rewrite registered_on, decide_True by done.
  rewrite set_add_idem, eventListeners_on, insert_insert_eq.
  rewrite (on_elsewhere_unchanged e l s). simpl.
  by rewrite eventListeners_on.
Qed.

Lemma tidy_registry_framed : Framed tidy_registry.
Proof. split; [split|..]; by intros. Qed.

Lemma on_keeps_tidy e l : keeps tidy_registry (on e l).
Proof.
  intros s Hs e' ls. change ((on e l s).2) with (after (on e l) s).
  rewrite eventListeners_on. destruct (decide (e = e')) as [<-|Hne].
  - rewrite lookup_insert_eq. intros [= <-]. split; [|apply set_add_nonempty].
    apply NoDup_set_add. unfold registered.
    destruct (eventListeners s !! e) as [ls0|] eqn:He; simpl; [|apply NoDup_nil_2].
    by apply (Hs e ls0).
  - rewrite lookup_insert_ne by done. apply Hs.
Qed.

Lemma off_keeps_tidy e l : keeps tidy_registry (off e l).
Proof.
  intros s Hs e' ls. change ((off e l s).2) with (after (off e l) s).
  rewrite eventListeners_off.
  destruct (eventListeners s !! e) as [ls0|] eqn:He; [|apply Hs].
  destruct (set_delete l ls0) as [|x ls'] eqn:Hd.
  - destruct (decide (e = e')) as [<-|Hne].
    + by rewrite lookup_delete_eq.
    + rewrite lookup_delete_ne by done. apply Hs.
  - destruct (decide (e = e')) as [<-|Hne].
    + rewrite lookup_insert_eq. intros [= <-]. split; [|done].
      rewrite <- Hd. apply NoDup_set_delete. by apply (Hs e ls0).
    + rewrite lookup_insert_ne by done. apply Hs.
Qed.

Lemma tidy_registry_reachable attempts delay ops :
  tidy_registry (run ops (init attempts delay)).
Proof.
  apply (run_invariant tidy_registry); [|by intros e ls].
  intros op s Hs. apply (step_framed tidy_registry); [apply tidy_registry_framed | | | done].
  - intros ev l _. apply on_keeps_tidy.
  - intros ev l _. apply off_keeps_tidy.
Qed.

(** ** Dispatch over the live set *)

Section LiveDispatchFacts.
Context {C : Callbacks}.

Lemma react_elsewhere event ls c : callback_event c ≠ event → react event ls c = ls.
Proof.
  intros Hc. unfold react.
  destruct (String.eqb_spec (callback_event c) event) as [?|_]; [done|].
  by rewrite andb_false_r.
Qed.

Lemma foldl_react_elsewhere event ls cs :
  Forall (λ c, callback_event c ≠ event) cs → foldl (react event) ls cs = ls.
Proof.
  intros Hcs. induction Hcs as [|c cs Hc _ IH]; [done|].
  cbn [foldl]. by rewrite react_elsewhere.
Qed.

Lemma elem_of_omap_id (l : Listener) (xs : list (option Listener)) :
  l ∈ omap id xs ↔ Some l ∈ xs.
Proof.
  rewrite list_elem_of_omap. split.
  - by intros ([x|] & Hx & [= ->]).
  - intros Hl. by exists (Some l).
Qed.

Lemma omap_id_delete (l : Listener) (xs : list (option Listener)) :
  omap id ((λ x, if decide (x = Some l) then None else x) <$> xs)
  = set_delete l (omap id xs).
Proof.
  unfold set_delete. induction xs as [|[x|] xs IH]; cbn; [done| |done].
  destruct (decide (Some x = Some l)) as [[= ->]|Hne]; cbn.
  - by rewrite decide_False by (by intros ?).
  - rewrite decide_True by congruence. by rewrite IH.
Qed.

Lemma no_slot_taken (xs : list (option Listener)) :
  existsb (λ x, bool_decide (is_Some x)) xs = true → omap id xs ≠ [].
Proof. induction xs as [|[x|] xs IH]; cbn; [done|done|apply IH]. Qed.

(** What a listener's call does to the set under iteration is what it
    does to the registry entry of the event. *)
Lemma react_tracks event ls c s :
  tracks event ls s → tracks event (react event ls c) (after (perform c) s).
Proof.
  intros Ht Hatt. unfold react in *.
  destruct (attached ls) eqn:Hls; [|cbn [andb] in Hatt; congruence].
  specialize (Ht Hls). cbn [andb] in *.
  destruct (String.eqb_spec (callback_event c) event) as [Hc|Hc].
  - destruct c as [e l|e l]; cbn [callback_event perform] in *; subst e.
    + rewrite eventListeners_on, lookup_insert_eq. f_equal.
      unfold registered. rewrite Ht. cbn [default from_option id]. unfold set_add, live_add.
      destruct (decide (Some l ∈ slots ls)) as [Hin|Hnin].
      * by rewrite decide_True by (by apply elem_of_omap_id).
      * rewrite decide_False by (by rewrite elem_of_omap_id).
        cbn [slots]. by rewrite omap_app.
    + rewrite eventListeners_off, Ht. unfold live_delete in *. cbn [slots attached] in *.
      rewrite <- omap_id_delete.
      pose proof (no_slot_taken _ Hatt) as Hne. revert Hne.
      generalize (omap id ((λ x : option Listener,
                              if decide (x = Some l) then None else x) <$> slots ls)).
      intros [|x xs] Hne; [done|]. by rewrite lookup_insert_eq.
  - rewrite <- Ht. destruct c as [e l|e l]; cbn [callback_event perform] in *.
    + by rewrite eventListeners_on, lookup_insert_ne.
    + rewrite eventListeners_off. destruct (eventListeners s !! e) as [ls0|]; [|done].
      destruct (set_delete l ls0); [by rewrite lookup_delete_ne | by rewrite lookup_insert_ne].
Qed.

(** [on] and [off] return normally and write nothing to the log. *)
Lemma perform_quietly c s :
  ∃ s', perform c s = (Returns tt, s') ∧ trace s' = trace s.
Proof.
  destruct c as [event l|event l]; cbn [perform].
  - unfold on, bind, get, when, modify, ret.
    destruct (negb _); eexists; (split; [reflexivity | done]).
  - unfold off, bind, get, when, modify, ret.
    destruct (eventListeners s !! event) as [ls|]; [|by eexists].
    destruct (length (set_delete l ls) =? 0)%nat; eexists; (split; [reflexivity | done]).
Qed.

Lemma for_each_perform_quietly cs s :
  ∃ s', for_each perform cs s = (Returns tt, s') ∧ trace s' = trace s.
Proof.
  revert s. induction cs as [|c cs IH]; intros s; [by exists s|].
  cbn [for_each]. unfold bind.
  destruct (perform_quietly c s) as (s1 & -> & H1).
  destruct (IH s1) as (s2 & -> & H2). exists s2. split; [done | congruence].
Qed.

(** So the set under iteration stays what the registry holds for the
    event through all the calls of a listener, until it is detached. *)
Lemma callbacks_track event cs ls s :
  tracks event ls s →
  tracks event (foldl (react event) ls cs) (after (for_each perform cs) s).
Proof.
  revert ls s. induction cs as [|c cs IH]; intros ls s Ht; [done|].
  cbn [foldl for_each]. unfold after, bind.
  pose proof (react_tracks event ls c s Ht) as Ht1. unfold after in Ht1.
  destruct (perform_quietly c s) as (s1 & Hc & _). rewrite Hc in *.
  by apply IH.
Qed.

(** One listener of the pass: it is called, and if it throws the error
    is logged. *)
Lemma visit_live event l data s :
  ∃ s', try_catch (call_live l data)
          (λ error, console_error ("Error in event listener for " ++ event ++ ":")) s
        = (Returns tt, s') ∧
        trace s' = (trace s ++ dispatch_trace event data [l])%list.
Proof.
  unfold try_catch, call_live, bind at 1, log, modify. cbn [fst snd].
  unfold bind.
  destruct (for_each_perform_quietly (callbacks l data)
              (set_trace (trace s ++ [ListenerCall l data]) s)) as (s1 & -> & H1).
  unfold dispatch_trace. cbn [mbind list_bind]. rewrite app_nil_r.
  destruct (throws l data); unfold throw, ret, console_error, log, modify.
  - eexists. split; [reflexivity|]. cbn [trace set_trace]. rewrite H1. cbn [trace set_trace].
    by rewrite <- app_assoc.
  - exists s1. by split.
Qed.

Lemma dispatch_trace_cons event data l ls :
  dispatch_trace event data (l :: ls)
  = (dispatch_trace event data [l] ++ dispatch_trace event data ls)%list.
Proof. unfold dispatch_trace. cbn [mbind list_bind]. by rewrite app_nil_r. Qed.

(** While no listener touches the set of [event], the pass over the live
    set visits what is left of the entries, one after the other. *)
Lemma forEach_live_untouched event data fuel visited rest s :
  (∀ l, l ∈ rest → Forall (λ c, callback_event c ≠ event) (callbacks l data)) →
  (length rest < fuel)%nat →
  ∃ s', forEach_live fuel event data (length visited)
          (mkLiveSet (Some <$> (visited ++ rest)%list) true) s
        = (Returns true, s') ∧
        trace s' = (trace s ++ dispatch_trace event data rest)%list.
Proof.
  revert fuel visited s. induction rest as [|l rest IH]; intros fuel visited s Hquiet Hfuel.
  - destruct fuel as [|fuel]; [lia|]. cbn [forEach_live slots].
    rewrite app_nil_r, lookup_ge_None_2 by (by rewrite length_fmap).
    exists s. split; [done|]. by rewrite app_nil_r.
  - destruct fuel as [|fuel]; [cbn in Hfuel; lia|]. cbn [forEach_live slots].
    rewrite list_lookup_fmap, list_lookup_middle by done. cbn [fmap option_fmap option_map].
    unfold bind.
    destruct (visit_live event l data s) as (s1 & -> & H1).
    rewrite foldl_react_elsewhere by (apply Hquiet, list_elem_of_here).
    destruct (IH fuel (visited ++ [l])%list s1) as (s2 & H2 & Htr).
    { intros l' Hl'. by apply Hquiet, list_elem_of_further. }
    { cbn in Hfuel. lia. }
    rewrite length_app, Nat.add_1_r, <- app_assoc in H2. cbn [app] in H2.
    exists s2. split; [done|].
    by rewrite Htr, H1, (dispatch_trace_cons event data l rest), <- app_assoc.
Qed.

(** X2.  [emit(e, data)] over the live set, when none of the listeners
    registered for [e] calls [on] or [off] for [e] while the dispatch
    runs (they may for other events): the iteration comes to its end and
    has called the listeners registered at entry, in registration order,
    each with [data] - each once, the set holding no listener twice -
    and has logged one error per listener that threw, as [emit] does. *)
Theorem live_emit_calls_each_listener_once e data fuel s :
  NoDup (registered e s) →
  (∀ l, l ∈ registered e s → Forall (λ c, callback_event c ≠ e) (callbacks l data)) →
  (length (registered e s) < fuel)%nat →
  (emit_live fuel e data s).1 = Returns true ∧
  since s (after (emit_live fuel e data) s) = since s (after (emit e data) s) ∧
  listener_calls (since s (after (emit_live fuel e data) s))
  = (λ l, (l, data)) <$> registered e s ∧
  NoDup (listener_calls (since s (after (emit_live fuel e data) s))).
Proof.
  intros Hnodup Hquiet Hfuel.
  assert (since s (after (emit e data) s) = dispatch_trace e data (registered e s)) as Hemit.
  { unfold after. rewrite emit_spec. cbn [snd]. by rewrite since_set_trace. }
  assert ((emit_live fuel e data s).1 = Returns true ∧
          since s (after (emit_live fuel e data) s)
          = dispatch_trace e data (registered e s)) as [Hret Hlive].
  { unfold after, emit_live, bind, get. unfold registered in *.
    destruct (eventListeners s !! e) as [ls|]; cbn [default] in *.
    - destruct (forEach_live_untouched e data fuel [] ls s Hquiet Hfuel) as (s' & Hrun & Htr).
      cbn [length app] in Hrun. rewrite Hrun.
      split; [done|]. unfold since. cbn [snd]. by rewrite Htr, drop_app_length.
    - split; [done|]. unfold since, ret. cbn [snd]. by rewrite drop_all. }
  split; [done|]. split; [congruence|].
  rewrite Hlive, listener_calls_dispatch. split; [done|].
  apply NoDup_fmap_2; [by intros x y [= ->] | done].
Qed.

End LiveDispatchFacts.

(** X3.  In every reachable state the registry holds a key exactly for
    the events that have a listener: [off] leaves no empty set behind. *)
Theorem registry_has_no_empty_sets attempts delay ops e :
  is_Some (eventListeners (run ops (init attempts delay)) !! e)
  ↔ ∃ l, l ∈ registered e (run ops (init attempts delay)).
Proof.
  set (s := run ops (init attempts delay)). unfold registered. split.
  - intros [ls Hls]. rewrite Hls. simpl.
    destruct (tidy_registry_reachable attempts delay ops e ls Hls) as [_ Hne].
    destruct ls as [|l ls]; [done|]. exists l. apply list_elem_of_here.
  - intros [l Hl]. destruct (eventListeners s !! e); [done|].
    by apply not_elem_of_nil in Hl.
Qed.

(** X4.  In every reachable state, registering a listener that was not
    registered for the event and removing it again restores the registry
    exactly, key set included. *)
Theorem on_then_off_restores_registry attempts delay ops e l :
  l ∉ registered e (run ops (init attempts delay)) →
  eventListeners (after (off e l) (after (on e l) (run ops (init attempts delay))))
  = eventListeners (run ops (init attempts delay)).
Proof.
  set (s := run ops (init attempts delay)). intros Hl.
  pose proof (tidy_registry_reachable attempts delay ops e) as Htidy. fold s in Htidy.
  rewrite eventListeners_off, eventListeners_on, lookup_insert_eq.
  unfold set_add. rewrite decide_False by done.
  rewrite set_delete_fresh by done.
  unfold registered in *.
  destruct (eventListeners s !! e) as [ls|] eqn:He; simpl in *.
  - destruct (Htidy ls eq_refl) as [_ Hne]. destruct ls as [|x ls]; [done|].
    rewrite insert_insert_eq. by apply insert_id.
  - rewrite delete_insert_eq. by apply delete_id.
Qed.

(** ** Outbound operations on a live socket *)

Lemma socket_connected_handle s :
  socket_connected s = true → ∃ h, socket s = Some h.
Proof. unfold socket_connected. destruct (socket s) as [h|]; [by exists h | done]. Qed.

(** X5.  When [this.socket?.connected] is true, each of the nine guarded
    operations returns [true] or nothing without throwing, and all it
    does is emit one event on the current socket under the operation's
    server-side name: no console.error line, no change to the service. *)
Theorem guarded_emits_once_on_live_socket g s :
  socket_connected s = true →
  ((guarded g s).1 = Returns (Some true) ∨ (guarded g s).1 = Returns None) ∧
  ∃ h args, socket s = Some h ∧
            after (guarded g) s
            = set_trace (trace s ++ [SocketEmit h (wire_name g) args]) s.
Proof.
  intros Hs. destruct (socket_connected_handle s Hs) as [h Hh].
  destruct g; simpl;
    unfold after, returning_bool, returning_nothing, joinRoom, leaveRoom,
      sendMessage, markMessageAsRead, sendTypingStatus, getActiveUsers,
      sendChatInvitation, acceptChatInvitation, rejectChatInvitation,
      socket_emit, bind, get; rewrite Hs; simpl; rewrite Hh; simpl;
    (split; [auto | by eexists h, _]).
Qed.

(** X6.  [emitEvent(event, data)] on a socket that is not connected logs
    one console.error line, emits nothing and returns [false].  On a
    connected socket it emits [event] with [data] as the only argument
    and returns [true], unless [event] is one of the six names the
    client library reserves: then [socket.emit] throws, [emitEvent] has
    no handler for it, and the exception reaches the caller with nothing
    emitted. *)
Theorem emitEvent_cases event data s :
  (socket_connected s = false →
   emitEvent event data s
   = (Returns false,
      set_trace (trace s ++ [ConsoleError ("Cannot emit " ++ event
                                           ++ ": WebSocket not connected")]) s)) ∧
  (socket_connected s = true → reserved event = false →
   ∃ h, socket s = Some h ∧
        emitEvent event data s
        = (Returns true, set_trace (trace s ++ [SocketEmit h event [data]]) s)) ∧
  (socket_connected s = true → reserved event = true →
   emitEvent event data s
   = (Throws (JStr (quoted event ++ " is a reserved event name")), s)).
Proof.
  unfold emitEvent, socket_emit, bind, get. repeat split.
  - by intros ->.
  - intros Hs Hr. destruct (socket_connected_handle s Hs) as [h Hh].
    exists h. split; [done|]. rewrite Hs, Hr. simpl. by rewrite Hh.
  - intros Hs Hr. destruct (socket_connected_handle s Hs) as [h Hh].
    rewrite Hs, Hr. simpl. by rewrite Hh.
Qed.

Lemma guarded_not_connected g s :
  socket_connected s = false →
  ∃ msg, ((guarded g s).1 = Returns (Some false) ∨ (guarded g s).1 = Returns None) ∧
         after (guarded g) s = set_trace (trace s ++ [ConsoleError msg]) s.
Proof.
  intros Hs.
  destruct g; simpl;
    unfold after, returning_bool, returning_nothing, joinRoom, leaveRoom,
      sendMessage, markMessageAsRead, sendTypingStatus, getActiveUsers,
      sendChatInvitation, acceptChatInvitation, rejectChatInvitation,
      bind, get; rewrite Hs; simpl; eauto.
Qed.

Lemma disconnect_not_connected s : socket_connected (after disconnect s) = false.
Proof.
  unfold after. pose proof (disconnect_spec s) as Hd.
  destruct (socket s) as [h|] eqn:Hsock.
  - by destruct Hd as (s0 & _ & ->).
  - rewrite Hd. simpl. unfold socket_connected. by rewrite Hsock.
Qed.

(** X7.  After [disconnect()], from any state, the [connected] getter is
    false and every guarded operation fails: it returns [false] or
    nothing and emits nothing. *)
Theorem guarded_fails_after_disconnect g s :
  connected (after disconnect s) = false ∧
  ((guarded g (after disconnect s)).1 = Returns (Some false) ∨
   (guarded g (after disconnect s)).1 = Returns None) ∧
  socket_emits (since (after disconnect s) (after (guarded g) (after disconnect s))) = [].
Proof.
  pose proof (disconnect_not_connected s) as Hnc.
  destruct (guarded_not_connected g _ Hnc) as (msg & Hres & ->).
  split; [unfold connected; rewrite Hnc; apply andb_false_r|].
  split; [done|]. by rewrite since_set_trace.
Qed.

(** ** Every way [connect] can go *)

Lemma attempt_spec store maxRetries delay i s :
  ∃ tr, attempt store maxRetries delay i s
        = (Returns (attempt_result (store i)), set_trace (trace s ++ tr) s) ∧
        waits tr = GetItemAsync "auth_token" ::
                   (if yields_token (store i) then []
                    else if (Z.of_nat i <? maxRetries - 1)%Z then [SetTimeout delay]
                         else []).
Proof.
  unfold attempt, attempt_result, yields_token, try_catch, bind, getItemAsync, bind,
    log, modify, console_error, when, sleep, log, modify, ret, throw.
  destruct (store i) as [v|e]; simpl; [destruct (truthy v); simpl|];
    try destruct (Z.of_nat i <? maxRetries - 1)%Z; simpl;
    rewrite <- ?app_assoc; eexists; (split; [reflexivity | done]).
Qed.

Lemma attempt_result_truthy o :
  attempt_result o = None ∨ truthy (attempt_result o) = true.
Proof.
  destruct o as [v|e]; simpl; [|by left].
  destruct (truthy v) eqn:Hv; [by right | by left].
Qed.

Lemma retry_loop_spec store maxRetries delay remaining i s :
  ∃ r tr, retry_loop store maxRetries delay remaining i s
          = (Returns r, set_trace (trace s ++ tr) s) ∧
          (r = None ∨ truthy r = true).
Proof.
  revert i s. induction remaining as [|n IH]; intros i s.
  - exists None, []. simpl. unfold ret. rewrite app_nil_r, set_trace_same. auto.
  - destruct (attempt_spec store maxRetries delay i s) as (tr1 & H1 & _).
    simpl. unfold bind. rewrite H1.
    destruct (attempt_result_truthy (store i)) as [Hr|Hr].
    + rewrite Hr.
      destruct (IH (S i) (set_trace (trace s ++ tr1) s)) as (r & tr2 & H2 & Hr2).
      exists r, (tr1 ++ tr2)%list. rewrite H2. simpl. by rewrite <- app_assoc.
    + destruct (attempt_result (store i)) as [tok|] eqn:Htok; [|done].
      exists (Some tok), tr1. unfold ret. auto.
Qed.

Lemma connect_cases store u s :
  ∃ r s', connect store u s = (Returns r, s') ∧
    match r with
    | Resolved true => socket_connected s = true ∧ s' = s
    | Resolved false =>
        socket_connected s = false ∧ ∃ tr, s' = set_trace (trace s ++ tr) s
    | Pending h =>
        socket_connected s = false ∧ h = length (sockets s) ∧
        ∃ tok tr, tok ≠ "" ∧ s' = opened tok u (set_trace (trace s ++ tr) s)
    end.
Proof.
  unfold connect, try_catch, bind, get.
  destruct (socket_connected s) eqn:Hs; [by exists (Resolved true), s|].
  unfold getAuthTokenWithRetry.
  destruct (retry_loop_spec store 3 1000 (Z.to_nat 3) 0 s) as (r & tr & -> & Hr).
  destruct Hr as [->|Hr].
  - simpl. unfold console_error, log, modify, ret. simpl.
    eexists (Resolved false), _. split; [reflexivity|]. split; [done|].
    eexists. by rewrite <- app_assoc.
  - destruct r as [tok|]; [|done]. rewrite Hr. cbn [negb default].
    rewrite open_socket_eq. simpl in Hr.
    eexists (Pending _), _. split; [reflexivity|]. split; [done|]. split; [done|].
    exists tok, tr. split; [|done]. intros ->. done.
Qed.

Lemma connect_for_accepted store u : connect_for true store u = connect store u.
Proof. reflexivity. Qed.

(** X8.  [connect] never throws, whatever the token store does and
    whether or not the library accepts the configured URI, and ends in
    one of four ways.  It resolves [true] at once and changes nothing
    exactly when the socket is already connected.  Otherwise it resolves
    [false] having changed nothing but the log (no token); or resolves
    [false] having stored [userId || null] and opened nothing ([io]
    threw, which only a refused URI brings about); or it has obtained a
    non-empty token, stored [userId || null], opened one new socket, made
    it the current one and handed back a promise that waits for it. *)
Theorem connect_for_outcomes accepted store u s :
  ∃ r s', connect_for accepted store u s = (Returns r, s') ∧
    match r with
    | Resolved true => socket_connected s = true ∧ s' = s
    | Resolved false =>
        socket_connected s = false ∧
        ∃ tr, s' = set_trace (trace s ++ tr) s ∨
              (accepted = false ∧
               s' = set_currentUserId (or_null u) (set_trace (trace s ++ tr) s))
    | Pending h =>
        accepted = true ∧ socket_connected s = false ∧ h = length (sockets s) ∧
        ∃ tok tr, tok ≠ "" ∧ s' = opened tok u (set_trace (trace s ++ tr) s)
    end.
Proof.
  destruct accepted.
  - rewrite connect_for_accepted.
    destruct (connect_cases store u s) as (r & s' & Heq & Hr).
    exists r, s'. split; [done|].
    destruct r as [[]|h]; [done| |done].
    destruct Hr as (Hs & tr & ->). split; [done|]. exists tr. by left.
  - unfold connect_for, try_catch, bind, get.
    destruct (socket_connected s) eqn:Hs; [by exists (Resolved true), s|].
    unfold getAuthTokenWithRetry.
    destruct (retry_loop_spec store 3 1000 (Z.to_nat 3) 0 s) as (r & tr & -> & Hr).
    destruct Hr as [->|Hr].
    + simpl. unfold console_error, log, modify, ret. simpl.
      eexists (Resolved false), _. split; [reflexivity|]. split; [done|].
      eexists. left. by rewrite <- app_assoc.
    + destruct r as [tok|]; [|done]. rewrite Hr. cbn [negb default].
      unfold open_socket_for, io_for, connect_failed, console_error, log, modify,
        bind, get, throw, ret. simpl.
      eexists (Resolved false), _. split; [reflexivity|]. split; [done|].
      eexists. right. split; [done|]. by rewrite <- app_assoc.
Qed.



Lemma handlers_for_connect_error :
  (filter (λ p : string * Handler, p.1 = "connect_error")
     [("connect", OnConnect); ("connect_error", OnConnectError);
      ("disconnect", OnDisconnect); ("error", OnError)]).*2 = [OnConnectError].
Proof. by vm_compute. Qed.

(** X10.  When [connect(userId)] has opened a socket and that socket's
    [connect_error] event comes next, the promise resolves [false], the
    [connected] getter is false and one console.error line is written;
    the socket handle and the cached user id stay as [connect] set them. *)
Theorem connect_error_resolves_false store u s h s1 err :
  connect store u s = (Returns (Pending h), s1) →
  awaited (Pending h) (after (socket_connect_error h err) s1) = Some false ∧
  connected (after (socket_connect_error h err) s1) = false ∧
  socket (after (socket_connect_error h err) s1) = Some h ∧
  currentUserId (after (socket_connect_error h err) s1) = or_null u ∧
  console_errors (since s1 (after (socket_connect_error h err) s1))
  = ["WebSocket connection error:"].
Proof.
  intros (tok & s0 & _ & -> & ->)%connect_pending.
  unfold after, socket_connect_error, fire, handlers_for, bind, get.
  cbn [opened sockets]. rewrite lookup_last.
  cbn [sock_handlers]. rewrite handlers_for_connect_error.
  cbn [for_each]. unfold run_handler, resolve, alter_socket, console_error, log,
    bind, modify, ret.
  simpl. rewrite alter_last. unfold connected, since. simpl.
  rewrite lookup_last, drop_app_length. done.
Qed.

(** ** Properties that last through every operation *)

Section LastingPredicates.
Variable P : Service → Prop.
Hypothesis HP : Lasting P.

Lemma lasts_log e : keeps P (log e).
Proof. apply keeps_modify. intros s. apply (lasting_trace P HP). Qed.

Lemma lasts_update f h : SocketUpdate f → keeps P (alter_socket f h).
Proof. intros Hf. apply keeps_modify. intros s. by apply (lasting_update P HP). Qed.

Lemma lasts_isConnected b : keeps P (modify (set_isConnected b)).
Proof. apply keeps_modify, (lasting_isConnected P HP). Qed.

Lemma lasts_attempts : keeps P (modify (set_reconnectAttempts 0)).
Proof. apply keeps_modify, (lasting_attempts P HP). Qed.

(** One step of a proof that a computation keeps [P]: through the monad's
    combinators, down to the writes above. *)
Ltac lasts_step :=
  lazymatch goal with
  | |- keeps _ (ret _) => apply keeps_ret
  | |- keeps _ get => apply keeps_get
  | |- keeps _ (throw _) => apply keeps_throw
  | |- keeps _ (log _) => apply lasts_log
  | |- keeps _ (modify (set_isConnected _)) => apply lasts_isConnected
  | |- keeps _ (modify (set_reconnectAttempts _)) => apply lasts_attempts
  | |- keeps _ (alter_socket _ _) => apply lasts_update; constructor
  | |- keeps _ (bind _ _) => apply keeps_bind; [|intros ?]
  | |- keeps _ (try_catch _ _) => apply keeps_try_catch; [|intros ?]
  | |- keeps _ (when _ _) => apply keeps_when
  | |- keeps _ (for_each _ _) => apply keeps_for_each; intros ?
  | |- keeps _ (console_error _) => unfold console_error
  | |- keeps _ (sleep _) => unfold sleep
  | |- keeps _ (socket_on _ _ _) => unfold socket_on
  | |- keeps _ (resolve _ _) => unfold resolve
  | |- keeps _ (call_listener _ _) => unfold call_listener
  | |- keeps _ (socket_emit _ _) => unfold socket_emit
  | |- keeps _ (getItemAsync _ _ _) => unfold getItemAsync
  | |- keeps _ (if ?b then _ else _) => destruct b
  | |- keeps _ (match ?x with _ => _ end) => destruct x
  end.

Lemma lasts_emit ev d : keeps P (emit ev d).
Proof. unfold emit. repeat lasts_step. Qed.

Lemma lasts_fire h ev d : keeps P (fire h ev d).
Proof.
  unfold fire. apply keeps_bind; [apply keeps_get | intros s0].
  apply keeps_for_each. intros hd.
  destruct hd; unfold run_handler, setupEventListeners;
    repeat lazymatch goal with
           | |- keeps _ (emit _ _) => apply lasts_emit
           | _ => lasts_step
           end.
Qed.

Lemma lasts_socket_disconnect h : keeps P (socket_disconnect h).
Proof.
  unfold socket_disconnect.
  repeat lazymatch goal with
         | |- keeps _ (fire _ _ _) => apply lasts_fire
         | _ => lasts_step
         end.
Qed.

Lemma lasts_guarded g : keeps P (guarded g).
Proof.
  destruct g; simpl;
    unfold returning_bool, returning_nothing, joinRoom, leaveRoom, sendMessage,
      markMessageAsRead, sendTypingStatus, getActiveUsers, sendChatInvitation,
      acceptChatInvitation, rejectChatInvitation;
    repeat lasts_step.
Qed.

Lemma lasts_retry_loop store maxRetries delay remaining i :
  keeps P (retry_loop store maxRetries delay remaining i).
Proof.
  revert i. induction remaining as [|n IH]; intros i; simpl; [apply keeps_ret|].
  apply keeps_bind; [unfold attempt; repeat lasts_step|].
  intros [tok|]; [apply keeps_ret | apply IH].
Qed.

Lemma lasts_open_socket tok u : keeps P (open_socket tok u).
Proof. intros s Hs. rewrite open_socket_eq. by apply (lasting_open P HP). Qed.

Lemma lasts_connect store u : keeps P (connect store u).
Proof.
  unfold connect, connect_failed, getAuthTokenWithRetry.
  repeat lazymatch goal with
         | |- keeps _ (retry_loop _ _ _ _ _) => apply lasts_retry_loop
         | |- keeps _ (open_socket _ _) => apply lasts_open_socket
         | _ => lasts_step
         end.
Qed.

Lemma lasts_disconnect : keeps P disconnect.
Proof.
  intros s Hs. pose proof (disconnect_spec s) as Hd.
  destruct (socket s) as [h|]; [|by rewrite Hd].
  destruct Hd as (s0 & Hs0 & ->). simpl.
  apply (lasting_close P HP).
  pose proof (lasts_socket_disconnect h s Hs) as H0. by rewrite Hs0 in H0.
Qed.

Lemma lasts_reconnect store : keeps P (reconnect store).
Proof.
  unfold reconnect.
  repeat lazymatch goal with
         | |- keeps _ disconnect => apply lasts_disconnect
         | |- keeps _ (connect _ _) => apply lasts_connect
         | _ => lasts_step
         end.
Qed.

Lemma lasts_isAuthenticated store : keeps P (isAuthenticated store).
Proof. unfold isAuthenticated. repeat lasts_step. Qed.

Lemma lasts_emitEvent ev d : keeps P (emitEvent ev d).
Proof. unfold emitEvent. repeat lasts_step. Qed.

Lemma lasts_resume tok u : keeps P (try_catch (open_socket tok u) connect_failed).
Proof.
  apply keeps_try_catch; [apply lasts_open_socket|].
  intros e. unfold connect_failed. repeat lasts_step.
Qed.

Lemma lasts_socket_connects h : keeps P (socket_connects h).
Proof.
  unfold socket_connects.
  apply keeps_bind; [apply lasts_update; constructor | intros _; apply lasts_fire].
Qed.

Lemma lasts_socket_drops h r : keeps P (socket_drops h r).
Proof.
  unfold socket_drops.
  apply keeps_bind; [apply lasts_update; constructor | intros _; apply lasts_fire].
Qed.

(** Every operation keeps a lasting predicate. *)
Lemma step_lasting op s : P s → P (step op s).
Proof.
  intros Hs. destruct op; cbn [step]; unfold after.
  - by apply lasts_connect.
  - by apply lasts_resume.
  - by apply lasts_disconnect.
  - by apply lasts_reconnect.
  - by apply lasts_connect.
  - by apply lasts_isAuthenticated.
  - by apply lasts_guarded.
  - by apply lasts_emitEvent.
  - apply (keeps_on P); [apply (lasting_registry P HP) | done].
  - apply (keeps_off P); [apply (lasting_registry P HP) | done].
  - by apply lasts_socket_connects.
  - by apply lasts_socket_drops.
  - by apply lasts_fire.
  - by apply lasts_fire.
  - by apply lasts_fire.
Qed.

Lemma run_lasting ops s : P s → P (run ops s).
Proof. apply (run_invariant P). apply step_lasting. Qed.

End LastingPredicates.

Lemma update_keeps_userId f so : SocketUpdate f → sock_userId (f so) = sock_userId so.
Proof. intros []; simpl; [done..|]. unfold settle. by destruct (sock_settled so). Qed.

Lemma update_keeps_settled f so b :
  SocketUpdate f → sock_settled so = Some b → sock_settled (f so) = Some b.
Proof. intros [] Hso; simpl; [done..|]. unfold settle. by rewrite Hso. Qed.

Lemma settled_with_lasting h b : Lasting (settled_with h b).
Proof.
  split; try by intros.
  - intros f h' s Hf Hs. unfold settled_with in *. simpl.
    destruct (decide (h' = h)) as [->|Hne].
    + rewrite list_lookup_alter_eq.
      destruct (sockets s !! h) as [so|]; [|done]. simpl in *.
      by apply update_keeps_settled.
    + by rewrite list_lookup_alter_ne.
  - intros tok u s Hs. unfold settled_with in *. simpl.
    destruct (sockets s !! h) as [so|] eqn:Hso; [|done].
    by rewrite (lookup_app_l_Some _ _ _ _ Hso).
Qed.

(** ** The first terminal event settles the promise *)

Section Awaiting.
Variable h : nat.

Lemma awaiting_update f h' s :
  h' ≠ h ∨ PromiseFree f → awaiting h s →
  awaiting h (set_sockets (alter f h' (sockets s)) s).
Proof.
  intros Hf (so & fwd & Hso & Hset & Hhs & Hfwd). unfold awaiting.
  cbn [sockets set_sockets].
  destruct (decide (h' = h)) as [->|Hne].
  - destruct Hf as [?|Hf]; [done|].
    rewrite list_lookup_alter_eq, Hso. cbn [fmap option_fmap option_map].
    destruct Hf as [ev Hev|b|].
    + exists (add_handlers [(ev, Forward ev)] so), (fwd ++ [(ev, Forward ev)])%list.
      split; [done|]. split; [done|]. split.
      * cbn [add_handlers sock_handlers]. by rewrite Hhs, <- app_assoc.
      * apply Forall_app. split; [done|]. apply Forall_singleton. by exists ev.
    + by exists (with_connected b so), fwd.
    + by exists (with_closed so), fwd.
  - exists so, fwd. by rewrite list_lookup_alter_ne.
Qed.

Lemma awaiting_alter f h' :
  h' ≠ h ∨ PromiseFree f → keeps (awaiting h) (alter_socket f h').
Proof. intros Hf. apply keeps_modify. intros s. by apply awaiting_update. Qed.

Lemma awaiting_opened tok u s : awaiting h s → awaiting h (opened tok u s).
Proof.
  intros (so & fwd & Hso & Hrest). exists so, fwd. split; [|done].
  cbn [opened sockets]. by apply lookup_app_l_Some.
Qed.

Lemma awaiting_setup : keeps (awaiting h) setupEventListeners.
Proof.
  unfold setupEventListeners. apply keeps_bind; [apply keeps_get | intros s0].
  destruct (socket s0) as [h'|]; [|apply keeps_ret].
  apply keeps_for_each_in. intros ev Hev. apply awaiting_alter. right. by constructor.
Qed.

Ltac awaiting_step :=
  lazymatch goal with
  | |- keeps _ (ret _) => apply keeps_ret
  | |- keeps _ get => apply keeps_get
  | |- keeps _ (throw _) => apply keeps_throw
  | |- keeps _ (log _) => apply keeps_modify; by intros
  | |- keeps _ (modify _) => apply keeps_modify; by intros
  | |- keeps _ setupEventListeners => apply awaiting_setup
  | |- keeps _ (alter_socket _ _) =>
      apply awaiting_alter; first [left; assumption | right; constructor]
  | |- keeps _ (bind _ _) => apply keeps_bind; [|intros ?]
  | |- keeps _ (try_catch _ _) => apply keeps_try_catch; [|intros ?]
  | |- keeps _ (when _ _) => apply keeps_when
  | |- keeps _ (for_each _ _) => apply keeps_for_each; intros ?
  | |- keeps _ (console_error _) => unfold console_error
  | |- keeps _ (sleep _) => unfold sleep
  | |- keeps _ (resolve _ _) => unfold resolve
  | |- keeps _ (call_listener _ _) => unfold call_listener
  | |- keeps _ (socket_emit _ _) => unfold socket_emit
  | |- keeps _ (getItemAsync _ _ _) => unfold getItemAsync
  | |- keeps _ (emit _ _) => unfold emit
  | |- keeps _ (if ?b then _ else _) => destruct b
  | |- keeps _ (match ?x with _ => _ end) => destruct x
  end.

(** Of the handlers a socket carries, only those of its own [connect]
    and [connect_error] resolve its promise. *)
Lemma awaiting_run_handler h' hd d :
  h' ≠ h ∨ (hd ≠ OnConnect ∧ hd ≠ OnConnectError) →
  keeps (awaiting h) (run_handler h' hd d).
Proof.
  intros Hc. destruct hd; unfold run_handler.
  - destruct Hc as [Hne|[? _]]; [|done]. repeat awaiting_step.
  - destruct Hc as [Hne|[_ ?]]; [|done]. repeat awaiting_step.
  - repeat awaiting_step.
  - repeat awaiting_step.
  - repeat awaiting_step.
Qed.

Lemma forwarders_for ev (fwd : list (string * Handler)) :
  Forall (λ p, ∃ ev, ev ∈ forwarded_events ∧ p = (ev, Forward ev)) fwd →
  ev ∉ forwarded_events →
  filter (λ p, p.1 = ev) fwd = [].
Proof.
  intros Hfwd Hev. induction Hfwd as [|p fwd (ev' & Hev' & ->) _ IH]; [done|].
  rewrite filter_cons_False; [done|]. cbn. by intros ->.
Qed.

Lemma awaiting_connect_handlers s :
  awaiting h s →
  handlers_for "connect" h s = [OnConnect] ∧
  handlers_for "connect_error" h s = [OnConnectError].
Proof.
  intros (so & fwd & Hso & _ & Hhs & Hfwd). unfold handlers_for.
  rewrite Hso, Hhs, !filter_app, !fmap_app.
  rewrite !(forwarders_for _ fwd Hfwd) by (unfold forwarded_events; compute_done).
  split; by vm_compute.
Qed.

Lemma awaiting_other_handlers s ev hd :
  awaiting h s → ev ≠ "connect" → ev ≠ "connect_error" →
  hd ∈ handlers_for ev h s → hd ≠ OnConnect ∧ hd ≠ OnConnectError.
Proof.
  intros (so & fwd & Hso & _ & Hhs & Hfwd) H1 H2. unfold handlers_for.
  rewrite Hso, Hhs. intros ([ev' hd'] & -> & [Hev Hin]%list_elem_of_filter)%list_elem_of_fmap.
  cbn in Hev. subst ev'. cbn.
  apply elem_of_app in Hin as [Hin|Hin].
  - unfold connect_handlers in Hin.
    repeat (apply elem_of_cons in Hin as [[= ? ?]|Hin]; [by subst|]).
    by apply elem_of_nil in Hin.
  - rewrite Forall_forall in Hfwd. by destruct (Hfwd _ Hin) as (? & _ & [= _ ->]).
Qed.

Lemma awaiting_fire h' ev d :
  h' ≠ h ∨ (ev ≠ "connect" ∧ ev ≠ "connect_error") →
  keeps (awaiting h) (fire h' ev d).
Proof.
  intros Hc s Hs. unfold fire, bind, get.
  apply (keeps_for_each_in (awaiting h)); [|done].
  intros hd Hhd. apply awaiting_run_handler.
  destruct (decide (h' = h)) as [->|Hne]; [|by left].
  destruct Hc as [?|[H1 H2]]; [done|]. right.
  by apply (awaiting_other_handlers s ev).
Qed.

Lemma awaiting_socket_disconnect h' : keeps (awaiting h) (socket_disconnect h').
Proof.
  unfold socket_disconnect.
  repeat lazymatch goal with
         | |- keeps _ (fire _ _ _) => apply awaiting_fire; by right
         | _ => awaiting_step
         end.
Qed.

Lemma awaiting_retry_loop store maxRetries delay remaining i :
  keeps (awaiting h) (retry_loop store maxRetries delay remaining i).
Proof.
  revert i. induction remaining as [|n IH]; intros i; simpl; [apply keeps_ret|].
  apply keeps_bind; [unfold attempt; repeat awaiting_step|].
  intros [tok|]; [apply keeps_ret | apply IH].
Qed.

Lemma awaiting_open_socket tok u : keeps (awaiting h) (open_socket tok u).
Proof. intros s Hs. rewrite open_socket_eq. by apply awaiting_opened. Qed.

Lemma awaiting_connect store u : keeps (awaiting h) (connect store u).
Proof.
  unfold connect, connect_failed, getAuthTokenWithRetry.
  repeat lazymatch goal with
         | |- keeps _ (retry_loop _ _ _ _ _) => apply awaiting_retry_loop
         | |- keeps _ (open_socket _ _) => apply awaiting_open_socket
         | _ => awaiting_step
         end.
Qed.

Lemma awaiting_disconnect : keeps (awaiting h) disconnect.
Proof.
  unfold disconnect.
  repeat lazymatch goal with
         | |- keeps _ (socket_disconnect _) => apply awaiting_socket_disconnect
         | _ => awaiting_step
         end.
Qed.

Lemma awaiting_reconnect store : keeps (awaiting h) (reconnect store).
Proof.
  unfold reconnect.
  repeat lazymatch goal with
         | |- keeps _ disconnect => apply awaiting_disconnect
         | |- keeps _ (connect _ _) => apply awaiting_connect
         | _ => awaiting_step
         end.
Qed.

Lemma awaiting_resume tok u :
  keeps (awaiting h) (try_catch (open_socket tok u) connect_failed).
Proof.
  apply keeps_try_catch; [apply awaiting_open_socket|].
  intros e. unfold connect_failed. repeat awaiting_step.
Qed.

Lemma awaiting_isAuthenticated store : keeps (awaiting h) (isAuthenticated store).
Proof. unfold isAuthenticated. repeat awaiting_step. Qed.

Lemma awaiting_guarded g : keeps (awaiting h) (guarded g).
Proof.
  destruct g; simpl;
    unfold returning_bool, returning_nothing, joinRoom, leaveRoom, sendMessage,
      markMessageAsRead, sendTypingStatus, getActiveUsers, sendChatInvitation,
      acceptChatInvitation, rejectChatInvitation;
    repeat awaiting_step.
Qed.

Lemma awaiting_emitEvent ev d : keeps (awaiting h) (emitEvent ev d).
Proof. unfold emitEvent. repeat awaiting_step. Qed.

Lemma awaiting_socket_connects h' : h' ≠ h → keeps (awaiting h) (socket_connects h').
Proof.
  intros Hne. unfold socket_connects.
  apply keeps_bind; [apply awaiting_alter; by left | intros _; apply awaiting_fire; by left].
Qed.

Lemma awaiting_socket_drops h' r : keeps (awaiting h) (socket_drops h' r).
Proof.
  unfold socket_drops.
  apply keeps_bind; [apply awaiting_alter; right; constructor|].
  intros _. apply awaiting_fire. by right.
Qed.

(** Every operation other than a [connect] or [connect_error] event of
    socket [h] leaves its promise pending. *)
Lemma step_awaiting op s :
  terminal_for h op = false → awaiting h s → awaiting h (step op s).
Proof.
  intros Hop Hs. destruct op; cbn [step terminal_for] in *; unfold after.
  - by apply awaiting_connect.
  - by apply awaiting_resume.
  - by apply awaiting_disconnect.
  - by apply awaiting_reconnect.
  - by apply awaiting_connect.
  - by apply awaiting_isAuthenticated.
  - by apply awaiting_guarded.
  - by apply awaiting_emitEvent.
  - by apply (keeps_on (awaiting h)).
  - by apply (keeps_off (awaiting h)).
  - apply awaiting_socket_connects; [|done]. by apply bool_decide_eq_false in Hop.
  - by apply awaiting_socket_drops.
  - apply awaiting_fire; [|done]. left. by apply bool_decide_eq_false in Hop.
  - apply awaiting_fire; [|done]. by right.
  - apply awaiting_fire; [|done].
    apply andb_false_iff in Hop as [Hop|Hop]; apply bool_decide_eq_false in Hop.
    + by left.
    + right. split; intros ->; apply Hop; set_solver.
Qed.

Lemma run_awaiting ops s :
  Forall (λ op, terminal_for h op = false) ops → awaiting h s → awaiting h (run ops s).
Proof.
  intros Hops. revert s. induction Hops as [|op ops Hop _ IH]; intros s Hs; [done|].
  apply IH. by apply step_awaiting.
Qed.

Lemma awaiting_pending s : awaiting h s → awaited (Pending h) s = None.
Proof. intros (so & fwd & Hso & Hnone & _). unfold awaited. by rewrite Hso. Qed.

Lemma resolve_settles b s : awaiting h s → settled_with h b (after (resolve h b) s).
Proof.
  intros (so & fwd & Hso & Hnone & _).
  unfold settled_with, after, resolve, alter_socket, modify. cbn [snd sockets set_sockets].
  rewrite list_lookup_alter_eq, Hso. cbn. unfold settle. by rewrite Hnone.
Qed.

(** The [connect] event of a socket that is waiting resolves [true]. *)
Lemma connect_event_settles s :
  awaiting h s → settled_with h true (after (socket_connects h) s).
Proof.
  intros Hs. unfold after, socket_connects, fire, bind at 1, alter_socket, modify at 1.
  cbn [fst snd]. set (s1 := set_sockets _ s).
  assert (awaiting h s1) as Hs1 by (apply awaiting_update; [right; constructor | done]).
  destruct (awaiting_connect_handlers s1 Hs1) as [Hhs _].
  unfold bind, get. rewrite Hhs. cbn [for_each]. unfold bind at 1, run_handler.
  unfold bind at 1, modify at 1. unfold bind at 1, modify at 1. unfold bind at 1.
  set (s2 := set_reconnectAttempts 0 (set_isConnected true s1)).
  assert (awaiting h s2) as Hs2 by done.
  pose proof (awaiting_setup s2 Hs2) as Hs3.
  pose proof (safe_unit setupEventListeners s2 safe_setupEventListeners) as Hret.
  destruct (setupEventListeners s2) as [o s3]. cbn in Hs3, Hret. subst o.
  pose proof (resolve_settles true s3 Hs3) as Hdone. unfold after in Hdone.
  destruct (resolve h true s3) as [[[]|e] s4] eqn:Hres; [done|].
  by unfold resolve, alter_socket, modify in Hres.
Qed.

(** Its [connect_error] event resolves [false]. *)
Lemma connect_error_event_settles err s :
  awaiting h s → settled_with h false (after (socket_connect_error h err) s).
Proof.
  intros Hs. unfold after, socket_connect_error, fire, bind, get.
  destruct (awaiting_connect_handlers s Hs) as [_ Hhs]. rewrite Hhs.
  cbn [for_each]. unfold bind, run_handler, console_error, log, bind, modify.
  cbn [fst snd].
  match goal with |- settled_with _ _ (match resolve h false ?s' with _ => _ end).2 =>
    assert (awaiting h s') as Hs' by done;
    pose proof (resolve_settles false s' Hs') as Hdone end.
  unfold after, resolve, alter_socket, modify in *. done.
Qed.

End Awaiting.

Lemma run_app ops1 ops2 s : run (ops1 ++ ops2) s = run ops2 (run ops1 s).
Proof. apply foldl_app. Qed.

(** X11.  The promise handed back by a [connect] call that opened socket
    [h] stays pending through every method call and socket event until
    the first [connect] or [connect_error] event of [h]; that event
    resolves it - [true] for [connect], [false] for [connect_error] - and
    nothing that happens later changes the value. *)
Theorem first_terminal_event_wins store u s h s1 ops :
  connect store u s = (Returns (Pending h), s1) →
  Forall (λ op, terminal_for h op = false) ops →
  awaited (Pending h) (run ops s1) = None ∧
  (∀ later, awaited (Pending h) (run (ops ++ SocketConnects h :: later) s1) = Some true) ∧
  (∀ err later,
     awaited (Pending h) (run (ops ++ SocketConnectError h err :: later) s1) = Some false).
Proof.
  intros (tok & s0 & _ & -> & ->)%connect_pending Hops.
  assert (awaiting (length (sockets s0)) (run ops (opened tok u s0))) as Hwait.
  { apply run_awaiting; [done|]. eexists _, []. cbn [opened sockets].
    rewrite lookup_last. by rewrite app_nil_r. }
  split; [by apply awaiting_pending|]. split.
  - intros later. rewrite run_app. cbn [run foldl].
    apply (run_lasting _ (settled_with_lasting _ true)).
    by apply connect_event_settles.
  - intros err later. rewrite run_app. cbn [run foldl].
    apply (run_lasting _ (settled_with_lasting _ false)).
    by apply connect_error_event_settles.
Qed.

Lemma socket_matches_userId_lasting : Lasting socket_matches_userId.
Proof.
  split; try by intros.
  - intros f h' s Hf Hs h Hh. destruct (Hs h Hh) as (so & Hso & Hu). simpl.
    destruct (decide (h' = h)) as [->|Hne].
    + exists (f so). rewrite list_lookup_alter_eq, Hso. simpl.
      by rewrite update_keeps_userId.
    + exists so. by rewrite list_lookup_alter_ne.
  - intros tok u s _ h [= <-]. simpl. eexists. by rewrite lookup_last.
Qed.

(** X12.  In every reachable state with a socket, the user id the
    service reports ([userId], [getConnectionStatus().userId]) is the one
    the current socket was opened with in its auth payload. *)
Theorem reported_userId_is_socket_userId attempts delay ops h :
  socket (run ops (init attempts delay)) = Some h →
  ∃ so, sockets (run ops (init attempts delay)) !! h = Some so ∧
        sock_userId so = status_userId (getConnectionStatus (run ops (init attempts delay))).
Proof.
  apply (run_lasting socket_matches_userId socket_matches_userId_lasting).
  by intros h'.
Qed.

(** X13.  [connect] does not close the socket it replaces: when the
    service holds a socket that is not connected and [connect] opens a
    new one, the old socket stays in place as it was - open, with its
    handlers - and only the handle moves on. *)
Theorem connect_abandons_old_socket store u s h0 so h s1 :
  socket s = Some h0 → sockets s !! h0 = Some so →
  connect store u s = (Returns (Pending h), s1) →
  h ≠ h0 ∧ socket s1 = Some h ∧ sockets s1 !! h0 = Some so.
Proof.
  intros Hh0 Hso Hconn.
  destruct (connect_cases store u s) as (r & s' & Heq & Hr).
  rewrite Hconn in Heq. injection Heq as <- <-.
  destruct Hr as (_ & -> & tok & tr & _ & ->).
  pose proof (lookup_lt_Some _ _ _ Hso) as Hlt. simpl.
  split; [lia|]. split; [done|]. by apply lookup_app_l_Some.
Qed.

(** ** Events on an established socket *)

Lemma forwarders_once :
  Forall (λ ev, (filter (λ p : string * Handler, p.1 = ev) handlers_after_connect).*2
                = [Forward ev]) forwarded_once.
Proof. repeat constructor. Qed.

Lemma handlers_for_disconnect :
  (filter (λ p : string * Handler, p.1 = "disconnect") handlers_after_connect).*2
  = [OnDisconnect].
Proof. by vm_compute. Qed.

Lemma handlers_for_error :
  (filter (λ p : string * Handler, p.1 = "error") handlers_after_connect).*2 = [OnError].
Proof. by vm_compute. Qed.

(** After [connect] has opened socket [h] and its [connect] event has
    arrived, the socket carries [handlers_after_connect]. *)
Lemma connected_socket_handlers store u s h s1 :
  connect store u s = (Returns (Pending h), s1) →
  ∃ so, sockets (after (socket_connects h) s1) !! h = Some so ∧
        sock_handlers so = handlers_after_connect.
Proof.
  intros (tok & s0 & _ & -> & ->)%connect_pending.
  unfold after, socket_connects, alter_socket, fire, handlers_for, bind, modify, get.
  cbn [opened sockets set_sockets fst snd].
  rewrite alter_last, lookup_last.
  cbn [sock_handlers with_connected]. rewrite handlers_for_connect.
  cbn [for_each]. unfold bind. rewrite (run_OnConnect _ (length (sockets s0))) by done.
  cbn [sockets set_sockets set_reconnectAttempts set_isConnected ret fst snd].
  rewrite !alter_last. simpl. rewrite lookup_last. by eexists.
Qed.

(** X14.  On a socket that carries the handlers of one connect, one
    delivery of [new_message], [message_read], [user_typing],
    [user_online], [user_offline] or [user_joined_room] calls every
    listener registered for that event exactly as one [emit] of it
    would: once each, in registration order, with the payload as
    received, logging the listeners that throw.  Nothing else changes
    and nothing is thrown. *)
Theorem inbound_event_forwarded_once h so ev data s :
  sockets s !! h = Some so →
  sock_handlers so = handlers_after_connect →
  ev ∈ forwarded_once →
  server_event h ev data s
  = (Returns tt, set_trace (trace s ++ dispatch_trace ev data (registered ev s)) s).
Proof.
  intros Hso Hh Hev.
  pose proof (proj1 (Forall_forall _ _) forwarders_once ev Hev) as Hf.
  unfold server_event, fire, handlers_for, bind, get. rewrite Hso, Hh, Hf.
  cbn [for_each]. unfold run_handler, bind. rewrite emit_spec. done.
Qed.

(** X15.  When the library reports the loss of such a socket
    ([disconnect] with a reason), the service clears [isConnected], so
    the [connected] getter is false, and calls every listener registered
    for [disconnected] once with [{ reason }].  It keeps the socket
    handle and the cached user id, and throws nothing. *)
Theorem unsolicited_disconnect_notifies h so reason s :
  sockets s !! h = Some so →
  sock_handlers so = handlers_after_connect →
  (socket_drops h reason s).1 = Returns tt ∧
  isConnected (after (socket_drops h reason) s) = false ∧
  connected (after (socket_drops h reason) s) = false ∧
  listener_calls (since s (after (socket_drops h reason) s))
  = (λ l, (l, JObj [("reason", JStr reason)])) <$> registered "disconnected" s ∧
  socket (after (socket_drops h reason) s) = socket s ∧
  currentUserId (after (socket_drops h reason) s) = currentUserId s.
Proof.
  intros Hso Hh.
  unfold after, socket_drops, alter_socket, fire, handlers_for, bind, modify, get.
  cbn [sockets set_sockets fst snd].
  rewrite list_lookup_alter_eq, Hso. cbn [fmap option_fmap option_map sock_handlers with_connected].
  rewrite Hh, handlers_for_disconnect.
  cbn [for_each]. unfold run_handler, bind, modify. rewrite emit_spec.
  unfold connected, since. simpl.
  rewrite drop_app_length, listener_calls_dispatch. done.
Qed.

(** X16.  A socket-level [error] on such a socket is logged and handed to
    every listener registered for [error] with the error as received;
    the connection flags, the socket handle and the cached user id are
    left alone, and nothing is thrown. *)
Theorem socket_error_forwarded h so err s :
  sockets s !! h = Some so →
  sock_handlers so = handlers_after_connect →
  socket_error h err s
  = (Returns tt,
     set_trace (trace s ++ ConsoleError "WebSocket error:"
                           :: dispatch_trace "error" err (registered "error" s)) s).
Proof.
  intros Hso Hh.
  unfold socket_error, fire, handlers_for, bind, get. rewrite Hso, Hh, handlers_for_error.
  cbn [for_each]. unfold run_handler, console_error, log, bind, modify.
  rewrite emit_spec. simpl. by rewrite <- app_assoc.
Qed.

(** ** [isAuthenticated] *)

(** X17.  [isAuthenticated()] reads the token store once, never throws,
    and answers whether that read produced a non-empty token: [false]
    when it resolved to null or to the empty string, and [false] after
    logging when it was rejected.  It changes nothing but the log. *)
Theorem isAuthenticated_reads_once store s :
  ∃ tr, isAuthenticated store s
        = (Returns (yields_token (store 0%nat)), set_trace (trace s ++ tr) s) ∧
        waits tr = [GetItemAsync "auth_token"] ∧
        console_errors tr = match store 0%nat with
                            | Resolves _ => []
                            | Rejects _ => ["Error checking authentication status:"]
                            end.
Proof.
  unfold isAuthenticated, try_catch, getItemAsync, console_error, log, bind, modify,
    ret, throw, yields_token.
  destruct (store 0%nat) as [v|e]; simpl; eexists.
  - split; [reflexivity | done].
  - split; [rewrite <- app_assoc; reflexivity | done].
Qed.

(** ** ChatScreen's message list *)

Lemma existsb_id_elem id (l : list Message) :
  existsb (λ m, String.eqb (msg_id m) id) l = true ↔ id ∈ msg_id <$> l.
Proof.
  rewrite existsb_exists, list_elem_of_fmap. split.
  - intros (m & Hm%list_elem_of_In & Heq%String.eqb_eq). by exists m.
  - intros (m & -> & Hm%list_elem_of_In). exists m. split; [done|]. apply String.eqb_refl.
Qed.

(** X18.  A [new_message] that is delivered twice is stored once:
    applying the update of [handleNewMessage] again with the same message
    changes nothing.  The update never removes or reorders what is in
    the list, and afterwards the message's id is in it. *)
Theorem handleNewMessage_idempotent message prev :
  handleNewMessage message (handleNewMessage message prev) = handleNewMessage message prev ∧
  prev `prefix_of` handleNewMessage message prev ∧
  msg_id message ∈ msg_id <$> handleNewMessage message prev.
Proof.
  assert (Hin : msg_id message ∈ msg_id <$> handleNewMessage message prev).
  { unfold handleNewMessage.
    destruct (existsb _ prev) eqn:He.
    - by apply existsb_id_elem.
    - rewrite fmap_app. apply elem_of_app. right. apply list_elem_of_here. }
  split; [|split; [|done]].
  - apply existsb_id_elem in Hin. unfold handleNewMessage at 1. by rewrite Hin.
  - unfold handleNewMessage. destruct (existsb _ prev); [done|].
    by apply prefix_app_r.
Qed.

(** X19.  If no two messages in the list share an id, that is still so
    after the update of [handleNewMessage], whatever message arrives. *)
Theorem handleNewMessage_keeps_ids_distinct message prev :
  NoDup (msg_id <$> prev) → NoDup (msg_id <$> handleNewMessage message prev).
Proof.
  intros Hnd. unfold handleNewMessage.
  destruct (existsb _ prev) eqn:He; [done|].
  rewrite fmap_app. apply NoDup_app. split; [done|]. split; [|apply NoDup_singleton].
  intros id Hid ->%list_elem_of_singleton.
  apply existsb_id_elem in Hid. congruence.
Qed.

(** X20.  The update of [handleMessageRead] keeps the list's length and
    order and every message's id and content; the messages whose id is
    the event's [messageId] get status ['READ'] and the event's
    [readAt], all others are untouched.  Applying it twice is the same as
    applying it once. *)
Theorem handleMessageRead_marks_matching data prev :
  Forall2 (λ m m', msg_id m' = msg_id m ∧ msg_content m' = msg_content m ∧
                   if String.eqb (msg_id m) (messageId data)
                   then msg_status m' = "READ" ∧ msg_readAt m' = Some (readAt data)
                   else m' = m)
          prev (handleMessageRead data prev) ∧
  handleMessageRead data (handleMessageRead data prev) = handleMessageRead data prev.
Proof.
  unfold handleMessageRead. split.
  - apply Forall2_fmap_r, Forall_Forall2_diag, Forall_forall. intros m _.
    unfold compose. by destruct (String.eqb (msg_id m) (messageId data)).
  - rewrite <- list_fmap_compose. apply list_fmap_ext. intros i m _. simpl.
    destruct (String.eqb (msg_id m) (messageId data)) eqn:Hm; simpl; by rewrite Hm.
Qed.

(** ** Environment configuration *)

Section EnvFacts.

Context {V Num : Type} `{!Builtins V Num}.

(** X21.  [getEnvVar] throws exactly when the key is configured neither
    in the Expo config nor in [process.env] and no fallback is given.  A
    configured value is returned whatever the fallback, and a value in
    the Expo config hides the one in [process.env]. *)
Theorem getEnvVar_fails_only_unconfigured (env : Environment V) key :
  (∀ fallback, (∃ message, getEnvVar env key fallback = Failed message)
               ↔ configured env key = None ∧ fallback = None) ∧
  (∀ fallback value, configured env key = Some value →
                     getEnvVar env key fallback = Ok value) ∧
  (∀ fallback extra v penv penv',
     extra !! key = Some v →
     getEnvVar (mkEnvironment (Some extra) penv) key fallback
     = getEnvVar (mkEnvironment (Some extra) penv') key fallback).
Proof.
  unfold getEnvVar, configured. split; [|split].
  - intros fallback.
    destruct (expo_extra env ≫= _) as [v|]; [|destruct (process_env env !! key) as [v|]].
    + split; [by intros [? ?] | by intros [? ?]].
    + split; [by intros [? ?] | by intros [? ?]].
    + destruct fallback as [f|]; (split; [intros [m Hm] | intros [_ Hf]]);
        try done. by eexists.
  - intros fallback value.
    destruct (expo_extra env ≫= _) as [v|]; [by intros [= <-]|].
    by intros ->.
  - intros fallback extra v penv penv' Hv. simpl. by rewrite Hv.
Qed.

Lemma getEnvVar_required (env : Environment V) key :
  getEnvVar env key None
  = match configured env key with
    | Some v => Ok v
    | None => Failed ("Environment variable " ++ key
                      ++ " is not defined and no fallback provided")
    end.
Proof.
  unfold getEnvVar, configured.
  destruct (expo_extra env ≫= _); [done|]. by destruct (process_env env !! key).
Qed.

(** X22.  [validateEnv] returns normally exactly when [API_BASE_URL] and
    [WEBSOCKET_URL] are both configured; otherwise it throws, and the
    message names the unconfigured ones, in that order, separated by
    [", "]. *)
Theorem validateEnv_reports_missing (env : Environment V) :
  validateEnv env
  = match filter (λ key, configured env key = None) requiredVars with
    | [] => Ok tt
    | missing =>
        Failed ("Missing required environment variables: " ++ String.concat ", " missing)
    end.
Proof.
  unfold validateEnv, missing_vars, requiredVars. simpl.
  rewrite !getEnvVar_required, !filter_cons, filter_nil.
  destruct (configured env "API_BASE_URL"), (configured env "WEBSOCKET_URL");
    by repeat case_decide.
Qed.

(** X23.  [getNumberEnvVar] returns the fallback only when nothing
    usable is there: a configured value that [parseInt] reads as a number
    is returned whatever the fallback, a configured value that is not a
    number gives the fallback, and for an unconfigured key the result is
    what [parseInt] reads in [String(fallback)], or the fallback itself. *)
Theorem getNumberEnvVar_cases (env : Environment V) key (fallback : Num) :
  getNumberEnvVar env key fallback
  = match configured env key with
    | Some value => default fallback (parseInt10 value)
    | None => default fallback (parseInt10 (String_num fallback))
    end.
Proof.
  unfold getNumberEnvVar, getEnvVar, configured.
  destruct (expo_extra env ≫= _) as [v|]; [by destruct (parseInt10 _)|].
  destruct (process_env env !! key) as [v|]; by destruct (parseInt10 _).
Qed.

End EnvFacts.

End Properties.

(** * Concrete runs *)

(** C1.  On a service connected as ["u1"], [reconnect()] disconnects,
    waits the configured 1000 ms and calls [connect] - but with no user
    id: the new socket is opened with [userId: null], and once it has
    connected the status still reports no user id.  The id known before
    the reconnect began, ["u1"], is lost. *)
Theorem reconnect_loses_user_id :
  currentUserId connected_as_u1 = Some "u1" ∧
  (reconnect (L := quiet) (token_store "tok") connected_as_u1).1 = Returns (Pending 1) ∧
  since connected_as_u1 (after (reconnect (L := quiet) (token_store "tok")) connected_as_u1)
  = [SocketDisconnect 0; SetTimeout 1000; GetItemAsync "auth_token"; Io 1 "tok" None] ∧
  getConnectionStatus
    (after (socket_connects (L := quiet) 1)
       (after (reconnect (L := quiet) (token_store "tok")) connected_as_u1))
  = mkStatus true 0 None.
Proof. by vm_compute. Qed.

(** C2, counterexample.  [replaced_socket] is reached by method calls and
    by events the library can raise; there the [connected] getter is
    false (the flag was cleared by the abandoned socket's [disconnect]
    handler) while the current socket is connected, and
    [sendMessage] returns [true] and emits on it. *)
Lemma guarded_emits_while_getter_false :
  feasible (L := quiet) replaced_socket_ops fresh = true ∧
  connected replaced_socket = false ∧
  (guarded (SendMessage "u2" "hi" None) replaced_socket).1 = Returns (Some true) ∧
  socket_emits (since replaced_socket
                  (after (guarded (SendMessage "u2" "hi" None)) replaced_socket))
  = [(1%nat, "send_message",
      [JObj [("recipientId", JStr "u2"); ("content", JStr "hi"); ("type", JStr "TEXT")]])].
Proof. by vm_compute. Qed.

(** C2, witness: [sendChatInvitation("u2", "hi")] on a new service. *)
Lemma guarded_fails_without_live_socket_witness :
  socket_connected fresh = false ∧
  (((guarded (SendChatInvitation "u2" "hi") fresh).1 = Returns (Some false) ∨
    (guarded (SendChatInvitation "u2" "hi") fresh).1 = Returns None) ∧
   socket_emits (since fresh (after (guarded (SendChatInvitation "u2" "hi")) fresh)) = [] ∧
   ∃ msg, since fresh (after (guarded (SendChatInvitation "u2" "hi")) fresh)
          = [ConsoleError msg]).
Proof.
  split; [reflexivity|].
  apply (guarded_fails_without_live_socket (SendChatInvitation "u2" "hi") fresh).
  reflexivity.
Defined.

(** The guard at the top of [connect]: on a service that is already
    connected it resolves [true] without reading the token store, empty
    or not. *)
Example connect_when_connected_reads_no_token :
  (∀ i, yields_token (empty_store i) = false) ∧
  (connect empty_store (Some "u1") connected_as_u1).1 = Returns (Resolved true) ∧
  waits (since connected_as_u1 (after (connect empty_store (Some "u1")) connected_as_u1)) = [].
Proof. split; [done | by vm_compute]. Qed.

(** C3, witness: an empty store and a new service. *)
Lemma connect_without_token_witness :
  socket_connected fresh = false ∧
  (∀ i, yields_token (empty_store i) = false) ∧
  (connect empty_store (Some "u1") fresh).1 = Returns (Resolved false) ∧
  waits (since fresh (after (connect empty_store (Some "u1")) fresh))
  = [GetItemAsync "auth_token"; SetTimeout 1000;
     GetItemAsync "auth_token"; SetTimeout 1000;
     GetItemAsync "auth_token"].
Proof.
  split; [reflexivity|]. split; [intros i; reflexivity|].
  apply (connect_without_token empty_store (Some "u1") fresh).
  - reflexivity.
  - intros i. reflexivity.
Defined.

(** C4, witness: listeners [1] and [2] on [new_message]; [1] is removed,
    a third listener is added and a request is sent; the next
    [new_message] reaches [2] and [3] and not [1]. *)
Lemma off_silences_listener_witness :
  Forall (λ op, op ≠ CallOn "new_message" 1%nat)
    [CallOn "new_message" 3%nat; CallGuarded GetActiveUsers] ∧
  let s1 := after (off "new_message" 1%nat) two_listeners in
  let s2 := run (L := quiet) [CallOn "new_message" 3%nat; CallGuarded GetActiveUsers] s1 in
  (∀ d, (1%nat, d) ∉ listener_calls
          (since s2 (after (emit (L := quiet) "new_message" (JStr "hello")) s2))) ∧
  (∀ l', l' ∈ registered "new_message" s2 →
         (l', JStr "hello") ∈ listener_calls
            (since s2 (after (emit (L := quiet) "new_message" (JStr "hello")) s2))) ∧
  (∀ l', l' ≠ 1%nat → l' ∈ registered "new_message" two_listeners →
         (l', JStr "hello") ∈ listener_calls
            (since s1 (after (emit (L := quiet) "new_message" (JStr "hello")) s1))) ∧
  (emit (L := quiet) "new_message" (JStr "hello") s2).1 = Returns tt.
Proof.
  split.
  - repeat constructor; discriminate.
  - apply (off_silences_listener (L := quiet) "new_message" 1%nat two_listeners
             [CallOn "new_message" 3%nat; CallGuarded GetActiveUsers] (JStr "hello")).
    repeat constructor; discriminate.
Defined.

(** The run of the witness above, computed. *)
Example off_then_emit_calls :
  listener_calls
    (since (run (L := quiet) [CallOn "new_message" 3%nat; CallGuarded GetActiveUsers]
              (after (off "new_message" 1%nat) two_listeners))
       (after (emit (L := quiet) "new_message" (JStr "hello"))
          (run (L := quiet) [CallOn "new_message" 3%nat; CallGuarded GetActiveUsers]
             (after (off "new_message" 1%nat) two_listeners))))
  = [(2%nat, JStr "hello"); (3%nat, JStr "hello")].
Proof. by vm_compute. Qed.

(** The scenario of the spec for C5: listeners A = [1] and B = [2] on
    [new_message], A throws; B still receives the message, A's error is
    logged and [emit] returns normally. *)
Example throwing_listener_scenario :
  emit (L := first_throws) "new_message" (JStr "hello") two_listeners
  = (Returns tt,
     set_trace [ListenerCall 1%nat (JStr "hello");
                ConsoleError "Error in event listener for new_message:";
                ListenerCall 2%nat (JStr "hello")] two_listeners).
Proof. by vm_compute. Qed.

(** C6.  After one successful connect, one delivery of [room_joined] (or
    of [room_left]) calls a registered listener twice:
    [setupEventListeners] registers a forwarding handler for each of
    these two events twice.  The other six events are forwarded once. *)
Theorem room_events_forwarded_twice :
  let d := JObj [("roomId", JStr "r1"); ("recipientId", JStr "u2")] in
  let calls ev :=
    listener_calls (since listening (step (L := quiet) (ServerEvent 0 ev d) listening)) in
  possible (ServerEvent 0 "room_joined" d) listening = true ∧
  calls "room_joined" = [(7%nat, d); (7%nat, d)] ∧
  calls "room_left" = [(7%nat, d); (7%nat, d)] ∧
  calls "new_message" = [(7%nat, d)] ∧
  calls "message_read" = [(7%nat, d)] ∧
  calls "user_typing" = [(7%nat, d)] ∧
  calls "user_online" = [(7%nat, d)] ∧
  calls "user_offline" = [(7%nat, d)] ∧
  calls "user_joined_room" = [(7%nat, d)].
Proof. by vm_compute. Qed.

(** C8, counterexample.  On a service connected as ["u1"],
    [connect("u2")] resolves [true] at once and the status keeps
    reporting ["u1"]. *)
Lemma connect_when_connected_keeps_user_id :
  (connect (token_store "tok") (Some "u2") connected_as_u1).1 = Returns (Resolved true) ∧
  awaited (Resolved true) (after (connect (token_store "tok") (Some "u2")) connected_as_u1)
  = Some true ∧
  status_userId
    (getConnectionStatus (after (connect (token_store "tok") (Some "u2")) connected_as_u1))
  = Some "u1" ∧
  status_userId
    (getConnectionStatus (after (connect (token_store "tok") (Some "u2")) connected_as_u1))
  ≠ Some "u2".
Proof. by vm_compute. Qed.

(** C8, witness: [connect("u2")] on the service connected as ["u1"]
    resolves [true] and changes nothing; [connect("u1")] on a new
    service with token ["tok"] opens socket 0, the application goes on
    for a while, and then the socket connects. *)
Lemma connect_then_status_witness :
  connect (token_store "tok") (Some "u2") connected_as_u1
  = (Returns (Resolved true), connected_as_u1) ∧
  getConnectionStatus
    (after (socket_connects (L := quiet) 0) (run (L := quiet) calls_while_pending pending_u1))
  = mkStatus true 0 (Some "u1") ∧
  awaited (Pending 0)
    (after (socket_connects (L := quiet) 0) (run (L := quiet) calls_while_pending pending_u1))
  = Some true.
Proof.
  split.
  - apply (proj1 (connect_then_status (L := quiet) (token_store "tok") (Some "u2")
                    connected_as_u1)).
    reflexivity.
  - pose proof (proj2 (connect_then_status (L := quiet) (token_store "tok") (Some "u1")
                         fresh) 0%nat pending_u1 calls_while_pending eq_refl) as H.
    destruct H as [Hstatus Hawait]; [repeat constructor|].
    split; [exact Hstatus|]. apply Hawait. vm_compute. discriminate.
Defined.

(** Why no second [connect] may come in between: [connect("u1")] and
    [connect("u2")] are both called before socket 0 connects.  The first
    call then resolves [true], while the service points at socket 1,
    which has not connected, and reports the second user id. *)
Example connect_overtaken_by_second_connect :
  awaited (Pending 0)
    (run (L := quiet)
       [CallConnect (token_store "tok") (Some "u1");
        CallConnect (token_store "tok") (Some "u2");
        SocketConnects 0] fresh) = Some true ∧
  getConnectionStatus
    (run (L := quiet)
       [CallConnect (token_store "tok") (Some "u1");
        CallConnect (token_store "tok") (Some "u2");
        SocketConnects 0] fresh) = mkStatus false 0 (Some "u2").
Proof. by vm_compute. Qed.

(** C7, counterexample.  The library refuses the configured URI, so
    [connect("u1")] has stored the user id (line 78) when [io] throws
    (line 82); the catch resolves [false] and the service holds a cached
    id and no socket.  [disconnect()] finds no socket and does nothing:
    the cached id is still there afterwards. *)
Lemma disconnect_keeps_user_id_without_socket :
  (connect_for false (token_store "tok") (Some "u1") fresh).1 = Returns (Resolved false) ∧
  socket refused_u1 = None ∧
  currentUserId refused_u1 = Some "u1" ∧
  disconnect (L := quiet) refused_u1 = (Returns tt, refused_u1) ∧
  currentUserId (after (disconnect (L := quiet)) refused_u1) = Some "u1" ∧
  currentUserId (after (disconnect (L := quiet)) refused_u1) ≠ None.
Proof. by vm_compute. Qed.

(** C10, witness: an empty store and a new service. *)
Lemma connect_token_failure_changes_nothing_witness :
  socket_connected fresh = false ∧
  (∀ i, (i < 3)%nat → yields_token (empty_store i) = false) ∧
  (connect empty_store (Some "u1") fresh).1 = Returns (Resolved false) ∧
  socket (after (connect empty_store (Some "u1")) fresh) = socket fresh ∧
  currentUserId (after (connect empty_store (Some "u1")) fresh) = currentUserId fresh ∧
  eventListeners (after (connect empty_store (Some "u1")) fresh) = eventListeners fresh ∧
  sockets (after (connect empty_store (Some "u1")) fresh) = sockets fresh ∧
  isConnected (after (connect empty_store (Some "u1")) fresh) = isConnected fresh.
Proof.
  split; [reflexivity|]. split; [intros i _; reflexivity|].
  apply (connect_token_failure_changes_nothing empty_store (Some "u1") fresh).
  - reflexivity.
  - intros i _. reflexivity.
Defined.

(** When the library reconnects a dropped socket by itself, the [connect]
    handler runs [setupEventListeners] once more, and every inbound event
    is forwarded once more per reconnection. *)
Example reconnection_repeats_forwarding :
  let s := run (L := quiet)
             [SocketDrops 0 "transport close"; SocketConnects 0] listening in
  feasible (L := quiet) [SocketDrops 0 "transport close"; SocketConnects 0] listening = true ∧
  listener_calls (since s (step (L := quiet) (ServerEvent 0 "new_message" (JStr "m")) s))
  = [(7%nat, JStr "m"); (7%nat, JStr "m")].
Proof. by vm_compute. Qed.

(** * Concrete runs for the further properties *)

(** X2, witness: listeners [1] and [2] on [new_message]; listener [1]
    throws and subscribes listener [9] to another event meanwhile. *)
Lemma live_emit_calls_each_listener_once_witness :
  (emit_live (L := first_throws) (C := subscribing_elsewhere) 3 "new_message" (JStr "m")
     two_listeners).1 = Returns true ∧
  listener_calls
    (since two_listeners
       (after (emit_live (L := first_throws) (C := subscribing_elsewhere) 3
                 "new_message" (JStr "m")) two_listeners))
  = [(1%nat, JStr "m"); (2%nat, JStr "m")].
Proof.
  destruct (live_emit_calls_each_listener_once (L := first_throws)
              (C := subscribing_elsewhere) "new_message" (JStr "m") 3 two_listeners)
    as (Hret & _ & Hcalls & _).
  - compute_done.
  - apply Forall_forall. compute_done.
  - vm_compute. lia.
  - split; [exact Hret | exact Hcalls].
Defined.

(** A listener that touches the set being dispatched changes the pass:
    listener [1] removes listener [2], which is then not called, and adds
    listener [3], which is.  A dispatch over the listeners found at entry
    would have called [1] and [2]. *)
Example live_dispatch_follows_the_set :
  (emit_live (L := quiet) (C := meddling) 10 "new_message" (JStr "m") two_listeners).1
  = Returns true ∧
  listener_calls
    (since two_listeners
       (after (emit_live (L := quiet) (C := meddling) 10 "new_message" (JStr "m"))
          two_listeners))
  = [(1%nat, JStr "m"); (3%nat, JStr "m")] ∧
  listener_calls
    (since two_listeners (after (emit (L := quiet) "new_message" (JStr "m")) two_listeners))
  = [(1%nat, JStr "m"); (2%nat, JStr "m")] ∧
  registered "new_message"
    (after (emit_live (L := quiet) (C := meddling) 10 "new_message" (JStr "m")) two_listeners)
  = [1%nat; 3%nat] ∧
  registered "user_online"
    (after (emit_live (L := quiet) (C := meddling) 10 "new_message" (JStr "m")) two_listeners)
  = [9%nat].
Proof. by vm_compute. Qed.

(** Listeners that take themselves off and register again are visited
    again and again: the pass does not come to an end. *)
Example live_dispatch_need_not_end :
  (emit_live (L := quiet) (C := restless) 50 "new_message" (JStr "m") two_listeners).1
  = Returns false ∧
  length (listener_calls
            (since two_listeners
               (after (emit_live (L := quiet) (C := restless) 50 "new_message" (JStr "m"))
                  two_listeners))) = 50%nat.
Proof. by vm_compute. Qed.

(** X4, witness: listener [3] is new to [new_message] in [two_listeners]. *)
Lemma on_then_off_restores_registry_witness :
  (3%nat ∉ registered "new_message"
             (run (L := quiet)
                [CallOn "new_message" 1%nat; CallOn "new_message" 2%nat] (init 5 1000))) ∧
  eventListeners
    (after (off "new_message" 3%nat)
       (after (on "new_message" 3%nat)
          (run (L := quiet)
             [CallOn "new_message" 1%nat; CallOn "new_message" 2%nat] (init 5 1000))))
  = eventListeners
      (run (L := quiet)
         [CallOn "new_message" 1%nat; CallOn "new_message" 2%nat] (init 5 1000)).
Proof.
  split; [compute_done|].
  apply (on_then_off_restores_registry (L := quiet) 5 1000
           [CallOn "new_message" 1%nat; CallOn "new_message" 2%nat] "new_message" 3%nat).
  compute_done.
Defined.

(** X5, witness: [sendMessage("u2", "hi")] on the connected service. *)
Lemma guarded_emits_once_on_live_socket_witness :
  socket_connected connected_as_u1 = true ∧
  ((guarded (SendMessage "u2" "hi" None) connected_as_u1).1 = Returns (Some true) ∨
   (guarded (SendMessage "u2" "hi" None) connected_as_u1).1 = Returns None) ∧
  ∃ h args, socket connected_as_u1 = Some h ∧
            after (guarded (SendMessage "u2" "hi" None)) connected_as_u1
            = set_trace (trace connected_as_u1
                         ++ [SocketEmit h (wire_name (SendMessage "u2" "hi" None)) args])
                connected_as_u1.
Proof.
  split; [reflexivity|].
  apply (guarded_emits_once_on_live_socket (SendMessage "u2" "hi" None) connected_as_u1).
  reflexivity.
Defined.

(** X6, witness: on the service connected as ["u1"], [emitEvent] passes
    ["ping"] on to socket 0 and throws on ["disconnect"]; on a new service
    it returns [false]. *)
Lemma emitEvent_cases_witness :
  emitEvent "ping" JNull fresh
  = (Returns false,
     set_trace [ConsoleError "Cannot emit ping: WebSocket not connected"] fresh) ∧
  (∃ h, socket connected_as_u1 = Some h ∧
        emitEvent "ping" JNull connected_as_u1
        = (Returns true,
           set_trace (trace connected_as_u1 ++ [SocketEmit h "ping" [JNull]])
             connected_as_u1)) ∧
  emitEvent "disconnect" JNull connected_as_u1
  = (Throws (JStr (quoted "disconnect" ++ " is a reserved event name")), connected_as_u1).
Proof.
  split; [|split].
  - apply (proj1 (emitEvent_cases "ping" JNull fresh)). reflexivity.
  - apply (proj1 (proj2 (emitEvent_cases "ping" JNull connected_as_u1))); reflexivity.
  - apply (proj2 (proj2 (emitEvent_cases "disconnect" JNull connected_as_u1))); reflexivity.
Defined.


(** X10, witness: the socket of [connect("u1")] fails to connect. *)
Lemma connect_error_resolves_false_witness :
  connect (token_store "tok") (Some "u1") fresh
  = (Returns (Pending 0), after (connect (token_store "tok") (Some "u1")) fresh) ∧
  awaited (Pending 0)
    (after (socket_connect_error (L := quiet) 0 (JStr "timeout"))
       (after (connect (token_store "tok") (Some "u1")) fresh)) = Some false ∧
  connected
    (after (socket_connect_error (L := quiet) 0 (JStr "timeout"))
       (after (connect (token_store "tok") (Some "u1")) fresh)) = false ∧
  socket
    (after (socket_connect_error (L := quiet) 0 (JStr "timeout"))
       (after (connect (token_store "tok") (Some "u1")) fresh)) = Some 0%nat ∧
  currentUserId
    (after (socket_connect_error (L := quiet) 0 (JStr "timeout"))
       (after (connect (token_store "tok") (Some "u1")) fresh)) = or_null (Some "u1") ∧
  console_errors
    (since (after (connect (token_store "tok") (Some "u1")) fresh)
       (after (socket_connect_error (L := quiet) 0 (JStr "timeout"))
          (after (connect (token_store "tok") (Some "u1")) fresh)))
  = ["WebSocket connection error:"].
Proof.
  split; [reflexivity|].
  apply (connect_error_resolves_false (L := quiet) (token_store "tok") (Some "u1") fresh 0
           (after (connect (token_store "tok") (Some "u1")) fresh) (JStr "timeout")).
  reflexivity.
Defined.

(** X11, witness: a second [connect], the connecting of its socket, an
    error and a subscription leave the promise of socket 0 pending; the
    [connect] event of socket 0 then resolves it [true] whatever follows,
    and its [connect_error] event resolves it [false] even if the socket
    connects afterwards. *)
Lemma first_terminal_event_wins_witness :
  awaited (Pending 0) (run (L := quiet) overlapping_calls pending_u1) = None ∧
  awaited (Pending 0)
    (run (L := quiet)
       (overlapping_calls
        ++ SocketConnects 0 :: [SocketConnectError 0 (JStr "late"); CallDisconnect])
       pending_u1) = Some true ∧
  awaited (Pending 0)
    (run (L := quiet)
       (overlapping_calls ++ SocketConnectError 0 (JStr "timeout") :: [SocketConnects 0])
       pending_u1) = Some false.
Proof.
  destruct (first_terminal_event_wins (L := quiet) (token_store "tok") (Some "u1") fresh
              0%nat pending_u1 overlapping_calls eq_refl) as (Hpending & Htrue & Hfalse).
  - repeat constructor.
  - split; [exact Hpending|]. split; [apply Htrue | apply Hfalse].
Defined.

(** X12, witness: the service connected as ["u1"]. *)
Lemma reported_userId_is_socket_userId_witness :
  socket (run (L := quiet)
            [CallConnect (token_store "tok") (Some "u1"); SocketConnects 0] (init 5 1000))
  = Some 0%nat ∧
  ∃ so, sockets (run (L := quiet)
                   [CallConnect (token_store "tok") (Some "u1"); SocketConnects 0]
                   (init 5 1000)) !! 0%nat = Some so ∧
        sock_userId so
        = status_userId
            (getConnectionStatus
               (run (L := quiet)
                  [CallConnect (token_store "tok") (Some "u1"); SocketConnects 0]
                  (init 5 1000))).
Proof.
  split; [reflexivity|].
  apply (reported_userId_is_socket_userId (L := quiet) 5 1000
           [CallConnect (token_store "tok") (Some "u1"); SocketConnects 0] 0).
  reflexivity.
Defined.

(** X13, witness: a second [connect] while socket 0 is still connecting. *)
Lemma connect_abandons_old_socket_witness :
  socket pending_u1 = Some 0%nat ∧ sockets pending_u1 !! 0%nat = Some opening_socket ∧
  connect (token_store "tok") (Some "u1") pending_u1
  = (Returns (Pending 1), after (connect (token_store "tok") (Some "u1")) pending_u1) ∧
  1%nat ≠ 0%nat ∧
  socket (after (connect (token_store "tok") (Some "u1")) pending_u1) = Some 1%nat ∧
  sockets (after (connect (token_store "tok") (Some "u1")) pending_u1) !! 0%nat
  = Some opening_socket.
Proof.
  split; [reflexivity|]. split; [reflexivity|]. split; [reflexivity|].
  apply (connect_abandons_old_socket (token_store "tok") (Some "u1") pending_u1 0
           opening_socket 1 (after (connect (token_store "tok") (Some "u1")) pending_u1));
    reflexivity.
Defined.

(** X14, witness: a [new_message] arrives on the connected socket. *)
Lemma inbound_event_forwarded_once_witness :
  sockets listening !! 0%nat = Some established_socket ∧
  sock_handlers established_socket = handlers_after_connect ∧
  "new_message" ∈ forwarded_once ∧
  server_event (L := quiet) 0 "new_message" (JStr "hello") listening
  = (Returns tt,
     set_trace (trace listening
                ++ dispatch_trace (L := quiet) "new_message" (JStr "hello")
                     (registered "new_message" listening)) listening).
Proof.
  split; [reflexivity|]. split; [reflexivity|]. split; [compute_done|].
  apply (inbound_event_forwarded_once (L := quiet) 0 established_socket "new_message"
           (JStr "hello") listening); [reflexivity | reflexivity | compute_done].
Defined.

(** X15, witness: the server drops the connected socket. *)
Lemma unsolicited_disconnect_notifies_witness :
  sockets listening !! 0%nat = Some established_socket ∧
  sock_handlers established_socket = handlers_after_connect ∧
  (socket_drops (L := quiet) 0 "transport close" listening).1 = Returns tt ∧
  isConnected (after (socket_drops (L := quiet) 0 "transport close") listening) = false ∧
  connected (after (socket_drops (L := quiet) 0 "transport close") listening) = false ∧
  listener_calls
    (since listening (after (socket_drops (L := quiet) 0 "transport close") listening))
  = (λ l, (l, JObj [("reason", JStr "transport close")]))
      <$> registered "disconnected" listening ∧
  socket (after (socket_drops (L := quiet) 0 "transport close") listening)
  = socket listening ∧
  currentUserId (after (socket_drops (L := quiet) 0 "transport close") listening)
  = currentUserId listening.
Proof.
  split; [reflexivity|]. split; [reflexivity|].
  apply (unsolicited_disconnect_notifies (L := quiet) 0 established_socket
           "transport close" listening); reflexivity.
Defined.

(** X16, witness: a socket-level error on the connected socket. *)
Lemma socket_error_forwarded_witness :
  sockets listening !! 0%nat = Some established_socket ∧
  sock_handlers established_socket = handlers_after_connect ∧
  socket_error (L := quiet) 0 (JStr "boom") listening
  = (Returns tt,
     set_trace (trace listening
                ++ ConsoleError "WebSocket error:"
                   :: dispatch_trace (L := quiet) "error" (JStr "boom")
                        (registered "error" listening)) listening).
Proof.
  split; [reflexivity|]. split; [reflexivity|].
  apply (socket_error_forwarded (L := quiet) 0 established_socket (JStr "boom") listening);
    reflexivity.
Defined.

(** X19, witness: the same message arrives in a list that holds it. *)
Lemma handleNewMessage_keeps_ids_distinct_witness :
  NoDup (msg_id <$> [hello_message]) ∧
  NoDup (msg_id <$> handleNewMessage hello_message [hello_message]).
Proof.
  assert (Hnd : NoDup (msg_id <$> [hello_message])).
  { apply NoDup_singleton. }
  split; [exact Hnd|].
  apply (handleNewMessage_keeps_ids_distinct hello_message [hello_message]). exact Hnd.
Defined.

(** The configuration of ENV_CONFIG.md read through [example_builtins]:
    a numeric setting is parsed, a malformed one falls back. *)
Example getNumberEnvVar_examples :
  let env := mkEnvironment (V := string) None
               {["WEBSOCKET_RECONNECT_ATTEMPTS" := "5";
                 "WEBSOCKET_RECONNECT_DELAY" := "soon"]} in
  getNumberEnvVar (Builtins0 := example_builtins) env "WEBSOCKET_RECONNECT_ATTEMPTS" 3 = 5 ∧
  getNumberEnvVar (Builtins0 := example_builtins) env "WEBSOCKET_RECONNECT_DELAY" 1000 = 1000 ∧
  validateEnv (Builtins0 := example_builtins) env
  = Failed "Missing required environment variables: API_BASE_URL, WEBSOCKET_URL".
Proof. by vm_compute. Qed.
